(** * A shallow embedding of [TopImage] (src/top_image.py) of pixelmap.

    [TopImage] builds a networkx [Graph] from a raster image
    ([read_nodes], [read_edges]) and segments a Dijkstra path into stages and
    rests ([read_path]).

    Modelling conventions:
    - Python exceptions are values of [py_error]; a method returns
      [result A] ([Ok] or [Err]).
    - Integers are [Z]; the floating-point quantities of [read_path]
      (distances and costs) are modelled as exact rationals [Q].
    - A Python dict is an association list in insertion order; a networkx
      graph is a list of nodes (with their [color] attribute) and a list of
      edges in first-insertion order. *)

From Stdlib Require Import ZArith QArith List String Bool Lia.
Import ListNotations.
Open Scope Z_scope.

(** ** Errors and the result monad *)

Inductive py_error : Type :=
| TypeError        (** arithmetic with [None] ([_step_size] unset) *)
| ValueError       (** [range()] with a zero step; negative Dijkstra weights *)
| KeyError         (** missing dict key (node, edge or colour) *)
| IndexError       (** [node_list[0]] on an empty list *)
| NodeNotFound     (** [networkx.NodeNotFound] *)
| NetworkXNoPath   (** [networkx.NetworkXNoPath] *)
| OutOfFuel.       (** not a Python exception: the iteration bound of the
                       Dijkstra model, unreachable on well-formed graphs *)

Inductive result (A : Type) : Type :=
| Ok : A -> result A
| Err : py_error -> result A.
Arguments Ok {A} _.
Arguments Err {A} _.

Definition bind {A B} (m : result A) (f : A -> result B) : result B :=
  match m with Ok a => f a | Err e => Err e end.

Notation "'let*' x ':=' m 'in' k" := (bind m (fun x => k))
  (at level 200, x name, m at level 100, k at level 200).

Definition of_option {A} (e : py_error) (o : option A) : result A :=
  match o with Some a => Ok a | None => Err e end.

(** ** Python [range(start, stop, step)] *)

Definition range_len (start stop step : Z) : Z :=
  if 0 <? step then (stop - start + step - 1) / step
  else (start - stop - step - 1) / (- step).

(** [range] raises [ValueError] on a zero step; otherwise it yields
    [start + k*step] for [k < len]. *)
Definition py_range (start stop step : Z) : result (list Z) :=
  if step =? 0 then Err ValueError
  else Ok (map (fun k => start + Z.of_nat k * step)
               (seq 0 (Z.to_nat (range_len start stop step)))).

(** ** Data model *)

Definition coord : Type := (Z * Z)%type.
Definition color : Type := (Z * Z * Z * Z)%type.

Definition coord_eqb (a b : coord) : bool :=
  (fst a =? fst b) && (snd a =? snd b).

Definition color_eqb (a b : color) : bool :=
  match a, b with
  | (r1, g1, b1, a1), (r2, g2, b2, a2) =>
      (r1 =? r2) && (g1 =? g2) && (b1 =? b2) && (a1 =? a2)
  end.

(** The density dict [dict[color, tuple[str, int]]]: colour -> (label, cost). *)
Definition density : Type := (string * Z)%type.
Definition density_dict : Type := list (color * density).

Fixpoint dict_get (d : density_dict) (c : color) : option density :=
  match d with
  | [] => None
  | (k, v) :: d' => if color_eqb k c then Some v else dict_get d' c
  end.

(** [QImage]: its size and [pixelColor(i, j).toTuple()]; Qt returns an
    (invalid) colour rather than raising out of range, so the accessor is
    total. *)
Record image : Type := mk_image {
  width : Z;
  height : Z;
  pixel_color : Z -> Z -> color
}.

(** Edge attributes: [{'factor': ..., 'terrain': ..., 'weight': ...}]. *)
Record edge_data : Type := mk_edge_data {
  factor : Q;
  terrain : string;
  weight : Z
}.

Record edge : Type := mk_edge {
  e_src : coord;
  e_dst : coord;
  e_data : edge_data
}.

Record graph : Type := mk_graph {
  g_nodes : list (coord * color);
  g_edges : list edge
}.

Definition empty_graph : graph := mk_graph [] [].

(** [self._graph.nodes[v]['color']] *)
Fixpoint node_lookup (ns : list (coord * color)) (v : coord) : option color :=
  match ns with
  | [] => None
  | (k, c) :: ns' => if coord_eqb k v then Some c else node_lookup ns' v
  end.

Definition node_color (G : graph) (v : coord) : result color :=
  of_option KeyError (node_lookup (g_nodes G) v).

(** [v in G] *)
Definition has_node (G : graph) (v : coord) : bool :=
  match node_lookup (g_nodes G) v with Some _ => true | None => false end.

(** [G.add_node(v, color=c)]: updates the attribute of an existing node. *)
Fixpoint add_node_list (ns : list (coord * color)) (v : coord) (c : color)
  : list (coord * color) :=
  match ns with
  | [] => [(v, c)]
  | (k, c') :: ns' =>
      if coord_eqb k v then (k, c) :: ns' else (k, c') :: add_node_list ns' v c
  end.

Definition add_node (G : graph) (v : coord) (c : color) : graph :=
  mk_graph (add_node_list (g_nodes G) v c) (g_edges G).

(** The undirected edge between [u] and [v], in either orientation. *)
Definition same_edge (u v : coord) (e : edge) : bool :=
  (coord_eqb (e_src e) u && coord_eqb (e_dst e) v)
  || (coord_eqb (e_src e) v && coord_eqb (e_dst e) u).

(** [G.add_edge(u, v, **data)]: a new edge is appended; an existing one keeps
    its place and gets the new attributes (all three keys are overwritten). *)
Fixpoint add_edge_list (es : list edge) (u v : coord) (d : edge_data) : list edge :=
  match es with
  | [] => [mk_edge u v d]
  | e :: es' =>
      if same_edge u v e then mk_edge u v d :: es'
      else e :: add_edge_list es' u v d
  end.

(** [G.edges[(u, v)]] *)
Fixpoint edge_lookup (es : list edge) (u v : coord) : option edge_data :=
  match es with
  | [] => None
  | e :: es' => if same_edge u v e then Some (e_data e) else edge_lookup es' u v
  end.

(** ** [TopImage] state *)

Record top_image : Type := mk_top_image {
  ti_density : density_dict;   (** [self._density_dict] *)
  ti_graph : graph;            (** [self._graph] *)
  ti_image : image;            (** [self._image] *)
  ti_step : option Z           (** [self._step_size] ([None] until [read_nodes]) *)
}.

Definition new_top_image (img : image) : top_image :=
  mk_top_image [] empty_graph img None.

(** Monadic loop over a list, threading a state. *)
Fixpoint foldM {A S} (f : S -> A -> result S) (s : S) (l : list A) : result S :=
  match l with
  | [] => Ok s
  | x :: l' => let* s' := f s x in foldM f s' l'
  end.

(** ** [read_nodes] (lines 49-57) *)

(** Body of the inner loop: sample [(i, j)], auto-register an unseen colour
    with [('', 0)], add the node. *)
Definition read_node (img : image) (i : Z) (st : density_dict * graph) (j : Z)
  : result (density_dict * graph) :=
  let '(dd, G) := st in
  let c := pixel_color img i j in
  let dd' := match dict_get dd c with
             | Some _ => dd
             | None => dd ++ [(c, (""%string, 0))]
             end in
  Ok (dd', add_node G (i, j) c).

Definition read_nodes (ti : top_image) (step_size : Z) : result top_image :=
  let img := ti_image ti in
  (* self._graph.clear(); self._step_size = step_size *)
  let* is := py_range 0 (width img - 1) step_size in
  let* st := foldM (fun st i =>
                let* js := py_range 0 (height img - 1) step_size in
                foldM (read_node img i) st js)
              (ti_density ti, empty_graph) is in
  Ok (mk_top_image (fst st) (snd st) img (Some step_size)).

(** ** [read_edges] (lines 23-47) *)

(** Python's [int(x)] on a number: truncation toward zero. *)
Definition py_int (q : Q) : Z := Z.quot (Qnum q) (Zpos (Qden q)).

(** [get_density(s, t)]: [min] of the two densities keyed by cost; Python's
    [min] keeps the first argument unless the second is strictly smaller. *)
Definition get_density (table : density_dict) (G : graph) (s t : coord)
  : result density :=
  let* cs := node_color G s in
  let* ds := of_option KeyError (dict_get table cs) in
  let* ct := node_color G t in
  let* dt := of_option KeyError (dict_get table ct) in
  Ok (if snd dt <? snd ds then dt else ds).

(** The four forward neighbours of [get_star] with their factors. *)
Definition star_targets (step : Z) (s : coord) : list (coord * Q) :=
  [ ((fst s + step, snd s), 1%Q);
    ((fst s, snd s + step), 1%Q);
    ((fst s + step, snd s + step), (3#2)%Q);
    ((fst s + step, snd s - step), (3#2)%Q) ].

(** One element of [get_star(s)] consumed by [add_edges_from]: the density is
    computed (both endpoints looked up, so both are already nodes) and the
    edge is added. *)
Definition add_star_edge (table : density_dict) (s : coord) (G : graph)
  (tf : coord * Q) : result graph :=
  let '(t, f) := tf in
  let* d := get_density table G s t in
  Ok (mk_graph (g_nodes G)
        (add_edge_list (g_edges G) s t
           (mk_edge_data f (fst d) (py_int (inject_Z (snd d) * f))))).

Definition read_edges (ti : top_image) (table : density_dict) : result top_image :=
  let img := ti_image ti in
  (* self._graph.clear_edges() *)
  let G0 := mk_graph (g_nodes (ti_graph ti)) [] in
  let* step := of_option TypeError (ti_step ti) in
  let* is := py_range step (width img - step - 1) step in
  let* G := foldM (fun G i =>
               let* js := py_range step (height img - step - 1) step in
               foldM (fun G j => foldM (add_star_edge table (i, j)) G
                                      (star_targets step (i, j))) G js)
             G0 is in
  Ok (mk_top_image table G img (ti_step ti)).

(** ** networkx [single_source_dijkstra] (networkx 3.x,
    [multi_source_dijkstra] and [_dijkstra_multisource] with one source,
    [pred=None], [cutoff=None], weight attribute ['weight']) *)

(** [G._adj[v].items()]: the neighbours of [v] in edge insertion order. *)
Definition neighbors (G : graph) (v : coord) : list (coord * edge_data) :=
  flat_map (fun e => if coord_eqb (e_src e) v then [(e_dst e, e_data e)]
                     else if coord_eqb (e_dst e) v then [(e_src e, e_data e)]
                     else []) (g_edges G).

Fixpoint lookup {A} (l : list (coord * A)) (v : coord) : option A :=
  match l with
  | [] => None
  | (k, a) :: l' => if coord_eqb k v then Some a else lookup l' v
  end.

(** [d[k] = a] on a dict: update in place, or append a new key. *)
Fixpoint assoc_set {A} (l : list (coord * A)) (v : coord) (a : A)
  : list (coord * A) :=
  match l with
  | [] => [(v, a)]
  | (k, a') :: l' => if coord_eqb k v then (k, a) :: l' else (k, a') :: assoc_set l' v a
  end.

(** A heap entry [(d, next(c), v)]. *)
Definition entry : Type := (Z * nat * coord)%type.

Definition ent_d (e : entry) : Z := fst (fst e).
Definition ent_c (e : entry) : nat := snd (fst e).
Definition ent_v (e : entry) : coord := snd e.

(** The heap order: by distance, then by the insertion counter. *)
Definition entry_leb (a b : entry) : bool :=
  (ent_d a <? ent_d b) || ((ent_d a =? ent_d b) && Nat.leb (ent_c a) (ent_c b)).

Fixpoint min_entry (m : entry) (l : list entry) : entry :=
  match l with
  | [] => m
  | e :: l' => min_entry (if entry_leb m e then m else e) l'
  end.

Fixpoint remove_entry (c : nat) (l : list entry) : list entry :=
  match l with
  | [] => []
  | e :: l' => if Nat.eqb (ent_c e) c then l' else e :: remove_entry c l'
  end.

(** [heappop(fringe)] *)
Definition pop_min (l : list entry) : option (entry * list entry) :=
  match l with
  | [] => None
  | e :: l' => let m := min_entry e l' in Some (m, remove_entry (ent_c m) l)
  end.

Record dstate : Type := mk_dstate {
  ds_dist : list (coord * Z);
  ds_seen : list (coord * Z);
  ds_paths : list (coord * list coord);
  ds_fringe : list entry;
  ds_count : nat
}.

(** [(d, _, v) = pop(fringe); if v in dist: continue], repeated until a node
    not yet in [dist] comes out or the fringe is empty; each round removes one
    entry, so [length fringe] rounds suffice. *)
Fixpoint pop_fresh (n : nat) (dist : list (coord * Z)) (fringe : list entry)
  : option (entry * list entry) :=
  match n with
  | O => None
  | S n' =>
      match pop_min fringe with
      | None => None
      | Some (e, fringe') =>
          match lookup dist (ent_v e) with
          | Some _ => pop_fresh n' dist fringe'
          | None => Some (e, fringe')
          end
      end
  end.

(** The body of [for u, e in G_succ[v].items()], [dist[v]] being [dv]. *)
Definition relax (v : coord) (dv : Z) (st : dstate) (ue : coord * edge_data)
  : result dstate :=
  let '(u, e) := ue in
  let vu_dist := dv + weight e in
  match lookup (ds_dist st) u with
  | Some u_dist =>
      if vu_dist <? u_dist then Err ValueError (* "Contradictory paths found" *)
      else Ok st
  | None =>
      let push :=
        let* pv := of_option KeyError (lookup (ds_paths st) v) in
        Ok (mk_dstate (ds_dist st) (assoc_set (ds_seen st) u vu_dist)
              (assoc_set (ds_paths st) u (pv ++ [u]))
              ((vu_dist, ds_count st, u) :: ds_fringe st) (S (ds_count st))) in
      match lookup (ds_seen st) u with
      | None => push
      | Some su => if vu_dist <? su then push else Ok st
      end
  end.

(** The [while fringe] loop; [None] only when the bound [fuel] on the number
    of nodes settled is exhausted (never for a well-formed graph, see
    [dijkstra_loop_fuel]). *)
Fixpoint dijkstra_loop (fuel : nat) (G : graph) (target : coord) (st : dstate)
  : option (result dstate) :=
  match fuel with
  | O => None
  | S fuel' =>
      match pop_fresh (List.length (ds_fringe st)) (ds_dist st) (ds_fringe st) with
      | None => Some (Ok (mk_dstate (ds_dist st) (ds_seen st) (ds_paths st) []
                                    (ds_count st)))
      | Some (e, fringe') =>
          let v := ent_v e in
          let st1 := mk_dstate ((v, ent_d e) :: ds_dist st) (ds_seen st)
                       (ds_paths st) fringe' (ds_count st) in
          if coord_eqb v target then Some (Ok st1)
          else
            match foldM (relax v (ent_d e)) st1 (neighbors G v) with
            | Err err => Some (Err err)
            | Ok st2 => dijkstra_loop fuel' G target st2
            end
      end
  end.

Definition dijkstra_init (source : coord) : dstate :=
  mk_dstate [] [(source, 0)] [(source, [source])] [(0, O, source)] 1.

(** [nx.single_source_dijkstra(G, source, target)[1]]. *)
Definition single_source_dijkstra (G : graph) (source target : coord)
  : result (list coord) :=
  if negb (has_node G source) then Err NodeNotFound
  else if coord_eqb target source then Ok [target]
  else
    match dijkstra_loop (S (List.length (g_nodes G))) G target (dijkstra_init source) with
    | None => Err OutOfFuel
    | Some (Err err) => Err err
    | Some (Ok st) =>
        (* return (dist[target], paths[target]); KeyError -> NetworkXNoPath *)
        match lookup (ds_dist st) target, lookup (ds_paths st) target with
        | Some _, Some p => Ok p
        | _, _ => Err NetworkXNoPath
        end
    end.

(** ** [read_path] (lines 59-88) *)

(** A stage or rest entry [(node, distance, cost, terrain)]. *)
Definition seg_entry : Type := (coord * Q * Q * string)%type.

Definition se_node (e : seg_entry) : coord := fst (fst (fst e)).
Definition se_distance (e : seg_entry) : Q := snd (fst (fst e)).
Definition se_cost (e : seg_entry) : Q := snd (fst e).
Definition se_terrain (e : seg_entry) : string := snd e.

(** The local variables of the loop. *)
Record seg_state : Type := mk_seg_state {
  last_node : coord;
  rests : list seg_entry;
  stages : list seg_entry;
  rest_distance : Q;
  rest_cost : Q;
  stage_distance : Q;
  stage_cost : Q;
  stage_terrain : string
}.

(** Python truthiness of the float [rest]. *)
Definition py_truthy (q : Q) : bool := negb (Qeq_bool q 0).

Section Segment.

Variable G : graph.                 (** [self._graph] *)
Variable step_size : option Z.      (** [self._step_size] *)
Variable pixel_length rest : Q.
Variable final : coord.             (** [node_list[-1]] *)

(** One iteration of [for node in node_list[1:]] (lines 71-87). *)
Definition seg_step (st : seg_state) (node : coord) : result seg_state :=
  let* edge := of_option KeyError (edge_lookup (g_edges G) (last_node st) node) in
  let* step := of_option TypeError step_size in
  let distance := (pixel_length * factor edge * inject_Z step)%Q in
  let cost := (distance * inject_Z (weight edge) / factor edge)%Q in
  let ter := terrain edge in
  let rd := (rest_distance st + distance)%Q in
  let rc := (rest_cost st + cost)%Q in
  let sd := (stage_distance st + distance)%Q in
  let sc := (stage_cost st + cost)%Q in
  (* if rest and rest_cost >= rest: ... *)
  let '(rests', rd', rc') :=
    if py_truthy rest && Qle_bool rest rc
    then (rests st ++ [(node, rd, rc, ter)], 0%Q, 0%Q)
    else (rests st, rd, rc) in
  (* if terrain != stage_terrain or node == node_list[-1]: ... *)
  let '(stages', sd', ter') :=
    if negb (String.eqb ter (stage_terrain st)) || coord_eqb node final
    then (stages st ++ [(last_node st, sd, sc, stage_terrain st)], 0%Q, ter)
    else (stages st, sd, stage_terrain st) in
  Ok (mk_seg_state node rests' stages' rd' rc' sd' sc ter').

End Segment.

(** The value returned by [read_path]. *)
Record path_report : Type := mk_path_report {
  pr_rests : list seg_entry;
  pr_stages : list seg_entry;
  pr_nodes : list coord
}.

(** The segmentation of a node list (lines 62-88) for the graph [G], the
    density dict [dd] and the step size. *)
Definition segment (G : graph) (dd : density_dict) (step_size : option Z)
  (node_list : list coord) (pixel_length rest : Q) : result path_report :=
  match node_list with
  | [] => Err IndexError
  | first :: tl =>
      let* c := node_color G first in
      let* d := of_option KeyError (dict_get dd c) in
      let st0 := mk_seg_state first [] [] 0 0 0 0 (fst d) in
      let* st := foldM (seg_step G step_size pixel_length rest
                          (last node_list first)) st0 tl in
      Ok (mk_path_report (rests st) (stages st) node_list)
  end.

Definition read_path (ti : top_image) (source target : coord)
  (pixel_length rest : Q) : result path_report :=
  let* node_list := single_source_dijkstra (ti_graph ti) source target in
  segment (ti_graph ti) (ti_density ti) (ti_step ti) node_list pixel_length rest.

(** ** Auxiliary notions used by the statements *)

(** [v] is connected to [s] in the undirected graph [G]. *)
Inductive reachable (G : graph) (s : coord) : coord -> Prop :=
| reach_refl : reachable G s s
| reach_step : forall v e, reachable G s v -> In e (g_edges G) ->
    (e_src e = v \/ e_dst e = v) ->
    reachable G s (if coord_eqb (e_src e) v then e_dst e else e_src e).

(** Every edge endpoint is a node (networkx adds missing endpoints as nodes;
    [read_edges] only adds edges between existing nodes). *)
Definition graph_wf (G : graph) : Prop :=
  forall e, In e (g_edges G) ->
    has_node G (e_src e) = true /\ has_node G (e_dst e) = true.

(** The invariant of [_dijkstra_multisource]'s loop. *)
Record dinv (G : graph) (s : coord) (st : dstate) : Prop := {
  dinv_dist_reach : forall x, In x (map fst (ds_dist st)) -> reachable G s x;
  dinv_dist_nodup : NoDup (map fst (ds_dist st));
  dinv_dist_node : forall x, In x (map fst (ds_dist st)) -> has_node G x = true;
  dinv_fringe : forall e, In e (ds_fringe st) ->
    reachable G s (ent_v e) /\ has_node G (ent_v e) = true /\
    In (ent_v e) (map fst (ds_paths st));
  dinv_mono : forall x dx e, In (x, dx) (ds_dist st) -> In e (ds_fringe st) ->
    dx <= ent_d e
}.

(** Consecutive nodes of a node list are joined by an edge of [G]. *)
Fixpoint is_walk (G : graph) (l : list coord) : bool :=
  match l with
  | a :: ((b :: _) as l') =>
      match edge_lookup (g_edges G) a b with
      | Some _ => is_walk G l'
      | None => false
      end
  | _ => true
  end.

(** The colour bookkeeping of [read_nodes]. *)
Definition registered (dd0 : density_dict) (st : density_dict * graph) : Prop :=
  exists added, fst st = dd0 ++ added /\ NoDup (map fst added) /\
    (forall c d, In (c, d) added -> d = (""%string, 0) /\ dict_get dd0 c = None) /\
    (forall v c, node_lookup (g_nodes (snd st)) v = Some c -> dict_get (fst st) c <> None).

(** The colours [read_nodes] has seen: every node carries its own pixel's
    colour, and every key the dict did not have at the start is the colour
    of a node. *)
Definition colours_sampled (img : image) (dd0 : density_dict)
  (st : density_dict * graph) : Prop :=
  (forall v c, node_lookup (g_nodes (snd st)) v = Some c ->
     c = pixel_color img (fst v) (snd v)) /\
  (forall c, In c (map fst (fst st)) -> dict_get dd0 c = None ->
     exists v, node_lookup (g_nodes (snd st)) v = Some c).

(** The stored paths: [paths[x]] is a simple walk of [G] from the source to
    [x] whose other nodes are settled. *)
Definition paths_ok (G : graph) (s : coord) (st : dstate) : Prop :=
  forall x p, In (x, p) (ds_paths st) ->
    hd_error p = Some s /\ last p s = x /\ is_walk G p = true /\ NoDup p /\
    (forall y, In y p -> y <> x -> In y (map fst (ds_dist st))).

(** [u] is settled or has an entry in the fringe. *)
Definition covered (st : dstate) (u : coord) : Prop :=
  In u (map fst (ds_dist st)) \/ exists e, In e (ds_fringe st) /\ ent_v e = u.

(** What the loop keeps while the target is not yet settled: unique heap
    counters, every seen node covered, every neighbour of a settled node
    covered, the source covered. *)
Record cinv (G : graph) (s t : coord) (st : dstate) : Prop := {
  cinv_count : forall e, In e (ds_fringe st) -> (ent_c e < ds_count st)%nat;
  cinv_nodup : NoDup (map ent_c (ds_fringe st));
  cinv_seen : forall u, In u (map fst (ds_seen st)) -> covered st u;
  cinv_closed : forall v, In v (map fst (ds_dist st)) ->
    forall u d, In (u, d) (neighbors G v) -> covered st u;
  cinv_source : covered st s;
  cinv_target : ~ In t (map fst (ds_dist st))
}.

(** The straight accumulation of the per-edge distances
    [pixel_length * factor * step] along a node list. *)
Fixpoint path_distance (G : graph) (step : Z) (pl : Q) (l : list coord) : Q :=
  match l with
  | a :: ((b :: _) as l') =>
      match edge_lookup (g_edges G) a b with
      | Some d => (pl * factor d * inject_Z step + path_distance G step pl l')%Q
      | None => path_distance G step pl l'
      end
  | _ => 0%Q
  end.

Definition sum_distance (l : list seg_entry) : Q :=
  fold_right Qplus 0%Q (map se_distance l).

(** [v] is a node whose colour is in [table]. *)
Definition colour_known (table : density_dict) (G : graph) (v : coord) : Prop :=
  exists c d, node_lookup (g_nodes G) v = Some c /\ dict_get table c = Some d.

(** ** Other members of [TopImage] and their callers *)

(** [TopImage.colors] (lines 15-17): [tuple(self._density_dict.keys())]. *)
Definition colors (ti : top_image) : list color := map fst (ti_density ti).

(** [c - c % step_size] in [Main.map_menu] (line 239); Python's [%] with a
    non-zero divisor is [Z.modulo] (the result has the divisor's sign). *)
Definition snap (step c : Z) : Z := c - c mod step.

(** The position offered by the context menu of [Main.map_menu] (line 239):
    [tuple(map(lambda c: c - c % self.cormyr.image.step_size, pos))].
    [None] when the expression raises: [TypeError] while [step_size] is
    [None], [ZeroDivisionError] when it is 0. *)
Definition map_menu_position (step_size : option Z) (pos : Z * Z) : option coord :=
  match step_size with
  | None => None
  | Some step =>
      if step =? 0 then None else Some (snap step (fst pos), snap step (snd pos))
  end.


(** ** Concrete scenarios *)

Definition plain : color := (129, 255, 0, 153).
Definition forest : color := (11, 119, 0, 153).
Definition water : color := (22, 64, 223, 153).
Definition unclassified : color := (0, 0, 0, 255).

(** 3 x 3, columns 0-1 "Plain" (cost 1), column 2 "Water" (cost 1000). *)
Definition img3 : image :=
  mk_image 3 3 (fun i _ => if i <=? 1 then plain else water).
Definition table3 : density_dict :=
  [(plain, ("Plain"%string, 1)); (water, ("Water"%string, 1000))].

(** 6 x 6, columns 0-1 "Plain" (cost 1), columns 2-5 "Forest" (cost 2). *)
Definition img6 : image :=
  mk_image 6 6 (fun i _ => if i <=? 1 then plain else forest).
Definition table6 : density_dict :=
  [(plain, ("Plain"%string, 1)); (forest, ("Forest"%string, 2))].

(** As [img6] with an unclassified pixel at (0, 0). *)
Definition img6u : image :=
  mk_image 6 6 (fun i j => if (i =? 0) && (j =? 0) then unclassified
                           else if i <=? 1 then plain else forest).

Definition build (img : image) (step : Z) (table : density_dict)
  : result top_image :=
  let* ti := read_nodes (new_top_image img) step in read_edges ti table.

Definition ti6 : top_image :=
  match build img6 1 table6 with Ok t => t | Err _ => new_top_image img6 end.

(** [img6] after [read_nodes(step_size=1)], before [read_edges]. *)
Definition ti6_nodes : top_image :=
  match read_nodes (new_top_image img6) 1 with
  | Ok t => t
  | Err _ => new_top_image img6
  end.

(** [img6u] after [read_nodes(step_size=1)], before [read_edges]. *)
Definition ti6u_nodes : top_image :=
  match read_nodes (new_top_image img6u) 1 with
  | Ok t => t
  | Err _ => new_top_image img6u
  end.

(** * Concrete runs *)

Lemma ti6_built : build img6 1 table6 = Ok ti6.
Proof. vm_compute. reflexivity. Qed.

(** The path (1,1) -> (4,1) of [ti6] crosses Plain then Forest:
    edges (1,1)-(2,1) Plain (weight 1), (2,1)-(3,1) and (3,1)-(4,1) Forest
    (weight 2). *)
Lemma ti6_path :
  single_source_dijkstra (ti_graph ti6) (1, 1) (4, 1) = Ok [(1, 1); (2, 1); (3, 1); (4, 1)].
Proof. vm_compute. reflexivity. Qed.

Lemma ti6_run_rest0 :
  read_path ti6 (1, 1) (4, 1) 1 0 =
  Ok (mk_path_report []
        [((2, 1), 2%Q, 3%Q, "Plain"%string); ((3, 1), 1%Q, 5%Q, "Forest"%string)]
        [(1, 1); (2, 1); (3, 1); (4, 1)]).
Proof. vm_compute. reflexivity. Qed.

(** ** C1 *)

(** C1 (code_bug): in [read_path] the stage branch resets [stage_distance]
    but not [stage_cost].  On [ti6], (1,1) -> (4,1), [pixel_length = 1],
    [rest = 0], the second stage covers the single Forest edge (3,1)-(4,1) of
    cost 2, but its recorded cost is 5, the running total 1 + 2 + 2. *)
Theorem C1_stage_cost_running_total :
  read_path ti6 (1, 1) (4, 1) 1 0 =
  Ok (mk_path_report []
        [((2, 1), 2%Q, 3%Q, "Plain"%string); ((3, 1), 1%Q, 5%Q, "Forest"%string)]
        [(1, 1); (2, 1); (3, 1); (4, 1)]).
Proof. vm_compute. reflexivity. Qed.

(** ** Counterexamples *)

(** C2: a negative rest budget does not disable rests: on [ti6] with
    [rest = -1] every edge of (1,1) -> (4,1) emits a rest. *)
Lemma C2_negative_budget_emits_rests :
  ~ (forall ti s t pl rest r, (rest <= 0)%Q ->
       read_path ti s t pl rest = Ok r -> pr_rests r = []).
Proof.
  intro H.
  specialize (H ti6 (1, 1) (4, 1) 1%Q (-1)%Q).
  assert (Hle : (-1 <= 0)%Q) by (vm_compute; discriminate).
  destruct (read_path ti6 (1, 1) (4, 1) 1 (-1)) as [r|] eqn:E;
    [| vm_compute in E; discriminate].
  specialize (H r Hle eq_refl).
  vm_compute in E. injection E as <-. discriminate H.
Qed.

(** C3: the first stage of (1,1) -> (4,1) on [ti6] is anchored at (2,1), the
    start of the edge that ends it, not at the source (1,1). *)
Lemma C3_anchor_not_stage_start :
  ~ (forall ti s t pl rest r e, read_path ti s t pl rest = Ok r ->
       hd_error (pr_stages r) = Some e -> se_node e = s).
Proof.
  intro H.
  destruct (read_path ti6 (1, 1) (4, 1) 1 0) as [r|] eqn:E;
    [| vm_compute in E; discriminate].
  pose proof E as E'. vm_compute in E'. injection E' as <-.
  specialize (H _ _ _ _ _ _ _ E eq_refl). discriminate H.
Qed.

(** C4: with a rest budget of 100 no rest is emitted on (1,1) -> (4,1) of
    [ti6]: the rest distances sum to 0 while the stage distances sum to 3. *)
Lemma C4_rest_sum_drops_last_day :
  ~ (forall ti s t pl rest r, (0 < rest)%Q ->
       read_path ti s t pl rest = Ok r -> (2 <= List.length (pr_nodes r))%nat ->
       (sum_distance (pr_stages r) == sum_distance (pr_rests r))%Q).
Proof.
  intro H.
  destruct (read_path ti6 (1, 1) (4, 1) 1 100) as [r|] eqn:E;
    [| vm_compute in E; discriminate].
  pose proof E as E'. vm_compute in E'. injection E' as <-.
  specialize (H _ _ _ _ _ _ (eq_refl : (0 ?= 100)%Q = Lt) E ltac:(simpl; lia)).
  vm_compute in H. discriminate H.
Qed.

(** C6: on the 3 x 3 scenario no edge is built, and the query
    (0,0) -> (1,0) fails. *)
Lemma C6_query_fails :
  ~ (exists ti r, build img3 1 table3 = Ok ti /\
       read_path ti (0, 0) (1, 0) 1 0 = Ok r /\ pr_nodes r = [(0, 0); (1, 0)]).
Proof.
  intros (ti & r & Hb & Hr & _).
  vm_compute in Hb. injection Hb as <-.
  vm_compute in Hr. discriminate Hr.
Qed.

(** C7: a target that is not a node gives [NetworkXNoPath], not
    [NodeNotFound]: (1,1) -> (9,9) on [ti6]. *)
Lemma C7_missing_target_no_path :
  ~ (forall ti s t pl rest, has_node (ti_graph ti) t = false ->
       read_path ti s t pl rest = Err NodeNotFound).
Proof.
  intro H.
  specialize (H ti6 (1, 1) (9, 9) 1%Q 0%Q).
  assert (Hn : has_node (ti_graph ti6) (9, 9) = false) by (vm_compute; reflexivity).
  specialize (H Hn). vm_compute in H. discriminate H.
Qed.

(** C8: the colour of (0,0) of [img6u] is missing from [table6], yet
    [read_edges] succeeds: node (0,0) is touched by no swept edge. *)
Lemma C8_missing_colour_not_looked_up :
  ~ (forall ti table v c, node_lookup (g_nodes (ti_graph ti)) v = Some c ->
       dict_get table c = None -> exists err, read_edges ti table = Err err).
Proof.
  intro H.
  destruct (H ti6u_nodes table6 (0, 0) unclassified) as [err Herr];
    [vm_compute; reflexivity | vm_compute; reflexivity |].
  vm_compute in Herr. discriminate Herr.
Qed.

(** C9: a negative step on a 3 x 3 image does not raise. *)
Lemma C9_negative_step_accepted :
  ~ (forall ti step, step <= 0 -> exists err, read_nodes ti step = Err err).
Proof.
  intro H.
  destruct (H (new_top_image img3) (-1) ltac:(lia)) as [err Herr].
  vm_compute in Herr. discriminate Herr.
Qed.

(** * General lemmas *)

(** A loop invariant indexed by the processed prefix. *)
Lemma foldM_inv_prefix {A S} (f : S -> A -> result S) (P : list A -> S -> Prop) :
  forall l s0 s, P [] s0 ->
  (forall pre x post s s', l = pre ++ x :: post -> P pre s -> f s x = Ok s' ->
     P (pre ++ [x]) s') ->
  foldM f s0 l = Ok s -> P l s.
Proof.
  intros l s0 s H0 Hstep.
  enough (Hgen : forall l' done s0, l = done ++ l' -> P done s0 ->
            foldM f s0 l' = Ok s -> P l s) by (apply (Hgen l [] s0); auto).
  induction l' as [|x l' IH]; intros done s1 Hl Hp Hf.
  - simpl in Hf. injection Hf as <-. rewrite app_nil_r in Hl. now subst.
  - simpl in Hf. destruct (f s1 x) as [s2|] eqn:E; [|discriminate].
    apply (IH (done ++ [x]) s2); [now rewrite <- app_assoc | | exact Hf].
    exact (Hstep done x l' s1 s2 Hl Hp E).
Qed.

Lemma foldM_inv {A S} (f : S -> A -> result S) (P : S -> Prop) :
  forall l s0 s, P s0 -> (forall x s s', In x l -> P s -> f s x = Ok s' -> P s') ->
  foldM f s0 l = Ok s -> P s.
Proof.
  induction l as [|x l IH]; intros s0 s H0 Hstep Hf; simpl in Hf.
  - now injection Hf as <-.
  - destruct (f s0 x) as [s1|] eqn:E; [|discriminate].
    apply (IH s1); auto.
    + apply (Hstep x s0); simpl; auto.
    + intros y t t' Hy. apply Hstep. simpl; auto.
Qed.

Lemma segment_inv G dd step nl pl rest r :
  segment G dd step nl pl rest = Ok r ->
  exists first tl lbl st, nl = first :: tl /\
    foldM (seg_step G step pl rest (last nl first))
          (mk_seg_state first [] [] 0 0 0 0 lbl) tl = Ok st /\
    r = mk_path_report (rests st) (stages st) nl.
Proof.
  unfold segment. destruct nl as [|first tl]; [discriminate|].
  destruct (node_color G first) as [c|]; simpl; [|discriminate].
  destruct (dict_get dd c) as [d|]; simpl; [|discriminate].
  destruct (foldM _ _ tl) as [st|] eqn:E; simpl; [|discriminate].
  intros H. injection H as <-. exists first, tl, (fst d), st. auto.
Qed.

(** What one iteration of the [read_path] loop does. *)
Lemma seg_step_spec G step pl rest final st node st' :
  seg_step G step pl rest final st node = Ok st' ->
  exists d s,
    edge_lookup (g_edges G) (last_node st) node = Some d /\ step = Some s /\
    let distance := (pl * factor d * inject_Z s)%Q in
    let cost := (distance * inject_Z (weight d) / factor d)%Q in
    let rc := (rest_cost st + cost)%Q in
    let sd := (stage_distance st + distance)%Q in
    last_node st' = node /\
    stage_cost st' = (stage_cost st + cost)%Q /\
    (if py_truthy rest && Qle_bool rest rc
     then rests st' = rests st ++ [(node, (rest_distance st + distance)%Q, rc, terrain d)]
          /\ rest_distance st' = 0%Q /\ rest_cost st' = 0%Q
     else rests st' = rests st /\
          rest_distance st' = (rest_distance st + distance)%Q /\ rest_cost st' = rc) /\
    (if negb (String.eqb (terrain d) (stage_terrain st)) || coord_eqb node final
     then stages st' = stages st ++ [(last_node st, sd, (stage_cost st + cost)%Q,
                                      stage_terrain st)]
          /\ stage_distance st' = 0%Q /\ stage_terrain st' = terrain d
     else stages st' = stages st /\ stage_distance st' = sd /\
          stage_terrain st' = stage_terrain st).
Proof.
  unfold seg_step.
  destruct (edge_lookup (g_edges G) (last_node st) node) as [d|]; simpl; [|discriminate].
  destruct step as [s|]; simpl; [|discriminate].
  intros H. exists d, s. split; [reflexivity|]. split; [reflexivity|].
  destruct (py_truthy rest && _); destruct (negb _ || _);
    injection H as <-; simpl; repeat split.
Qed.

Lemma read_path_segment ti s t pl rest r :
  read_path ti s t pl rest = Ok r ->
  segment (ti_graph ti) (ti_density ti) (ti_step ti) (pr_nodes r) pl rest = Ok r.
Proof.
  unfold read_path.
  destruct (single_source_dijkstra (ti_graph ti) s t) as [nl|]; simpl; [|discriminate].
  intros H. pose proof H as H'.
  apply segment_inv in H' as (first & tl & lbl & st & -> & _ & ->). exact H.
Qed.

(** * Claims *)

(** ** C10 *)

(** C10: with a strictly positive rest budget, every rest entry emitted by
    [read_path] records an accumulated cost of at least the budget. *)
Theorem C10_rest_cost_at_least_budget :
  forall ti s t pl rest r, (0 < rest)%Q ->
  read_path ti s t pl rest = Ok r ->
  forall e, In e (pr_rests r) -> (rest <= se_cost e)%Q.
Proof.
  intros ti s t pl rest r _ Hr.
  apply read_path_segment, segment_inv in Hr as (first & tl & lbl & st & Hnl & Hf & ->).
  simpl. revert Hf.
  apply (foldM_inv _ (fun st => forall e, In e (rests st) -> (rest <= se_cost e)%Q)).
  - intros e [].
  - intros x st1 st2 _ IH Hs e He.
    apply seg_step_spec in Hs as (d & sz & _ & _ & _ & _ & Hrest & _).
    destruct (py_truthy rest && _) eqn:Ec.
    + destruct Hrest as (Hrs & _ & _). rewrite Hrs in He.
      apply in_app_or in He as [He | [<- | []]]; [now apply IH|].
      apply andb_prop in Ec as [_ Ec]. now apply Qle_bool_iff in Ec.
    + destruct Hrest as (Hrs & _ & _). rewrite Hrs in He. now apply IH.
Qed.

Lemma C10_witness :
  (0 < 3)%Q /\
  read_path ti6 (1, 1) (4, 1) 1 3 =
    Ok (mk_path_report [((3, 1), 2%Q, 3%Q, "Forest"%string)]
          [((2, 1), 2%Q, 3%Q, "Plain"%string); ((3, 1), 1%Q, 5%Q, "Forest"%string)]
          [(1, 1); (2, 1); (3, 1); (4, 1)]) /\
  (3 <= 3)%Q.
Proof.
  assert (Hpos : (0 < 3)%Q) by (vm_compute; reflexivity).
  assert (Hrun : read_path ti6 (1, 1) (4, 1) 1 3 =
    Ok (mk_path_report [((3, 1), 2%Q, 3%Q, "Forest"%string)]
          [((2, 1), 2%Q, 3%Q, "Plain"%string); ((3, 1), 1%Q, 5%Q, "Forest"%string)]
          [(1, 1); (2, 1); (3, 1); (4, 1)])) by (vm_compute; reflexivity).
  split; [exact Hpos|]. split; [exact Hrun|].
  exact (C10_rest_cost_at_least_budget ti6 (1, 1) (4, 1) 1 3 _ Hpos Hrun
           ((3, 1), 2%Q, 3%Q, "Forest"%string) (or_introl eq_refl)).
Defined.

(** ** C2 *)

Lemma edge_lookup_in es u v d :
  edge_lookup es u v = Some d -> exists e, In e es /\ e_data e = d.
Proof.
  induction es as [|e es IH]; simpl; [discriminate|].
  destruct (same_edge u v e).
  - intros H. injection H as <-. eauto.
  - intros H. destruct (IH H) as (e' & ? & ?). eauto.
Qed.

Lemma inject_Z_nonneg z : 0 <= z -> (0 <= inject_Z z)%Q.
Proof. intros H. unfold Qle. simpl. lia. Qed.

(** The cost of one edge is non-negative when its inputs are. *)
Lemma edge_cost_nonneg pl f s w :
  (0 <= pl)%Q -> (0 < f)%Q -> 0 <= s -> 0 <= w ->
  (0 <= pl * f * inject_Z s * inject_Z w / f)%Q.
Proof.
  intros Hpl Hf Hs Hw. unfold Qdiv.
  apply Qmult_le_0_compat; [|apply Qinv_le_0_compat, Qlt_le_weak, Hf].
  apply Qmult_le_0_compat; [|now apply inject_Z_nonneg].
  apply Qmult_le_0_compat; [|now apply inject_Z_nonneg].
  apply Qmult_le_0_compat; [exact Hpl | apply Qlt_le_weak, Hf].
Qed.

(** C2 (corrected): [if rest and ...] disables rests only for a zero
    budget.  A budget equal to 0 yields no rest on any path; a negative budget
    does not disable them: with non-negative per-edge costs (pixel length,
    step, factors and weights non-negative) a rest is emitted after every
    edge of the path. *)
Theorem C2_zero_budget_disables_rests :
  forall ti s t pl rest r, read_path ti s t pl rest = Ok r ->
  ((rest == 0)%Q -> pr_rests r = []) /\
  ((rest < 0)%Q -> (0 <= pl)%Q -> (forall z, ti_step ti = Some z -> 0 <= z) ->
   (forall e, In e (g_edges (ti_graph ti)) ->
      (0 < factor (e_data e))%Q /\ 0 <= weight (e_data e)) ->
   List.length (pr_rests r) = pred (List.length (pr_nodes r))).
Proof.
  intros ti s t pl rest r Hr.
  apply read_path_segment, segment_inv in Hr as (first & tl & lbl & st & Hnl & Hf & ->).
  simpl. split.
  - intros H0. revert Hf.
    apply (foldM_inv _ (fun st => rests st = [])); [reflexivity|].
    intros x st1 st2 _ IH Hs.
    apply seg_step_spec in Hs as (d & sz & _ & _ & _ & _ & Hrest & _).
    assert (Ht : py_truthy rest = false)
      by (unfold py_truthy; apply Qeq_bool_iff in H0; now rewrite H0).
    rewrite Ht in Hrest. simpl in Hrest. destruct Hrest as (-> & _). exact IH.
  - intros Hneg Hpl Hstep Hedges. rewrite Hnl. simpl.
    enough (H : (rest_cost st == 0)%Q /\ List.length (rests st) = List.length tl)
      by apply H.
    revert Hf.
    apply (foldM_inv_prefix _ (fun pre st => (rest_cost st == 0)%Q /\
                                   List.length (rests st) = List.length pre)).
    + split; reflexivity.
    + intros pre x post st1 st2 _ [Hrc Hlen] Hs.
      apply seg_step_spec in Hs
        as (d & sz & Hd & Hsz & _ & _ & Hrest & _).
      destruct (edge_lookup_in _ _ _ _ Hd) as (e & He & <-).
      destruct (Hedges e He) as [Hfac Hw].
      pose proof (Hstep sz Hsz) as Hsz0.
      assert (Ht : py_truthy rest = true).
      { unfold py_truthy. destruct (Qeq_bool rest 0) eqn:E; [|reflexivity].
        apply Qeq_bool_iff in E. rewrite E in Hneg. discriminate Hneg. }
      assert (Hle : Qle_bool rest (rest_cost st1 +
                      pl * factor (e_data e) * inject_Z sz *
                      inject_Z (weight (e_data e)) / factor (e_data e)) = true).
      { apply Qle_bool_iff. rewrite Hrc, Qplus_0_l.
        apply Qle_trans with 0%Q; [now apply Qlt_le_weak|].
        now apply edge_cost_nonneg. }
      rewrite Ht, Hle in Hrest. simpl in Hrest.
      destruct Hrest as (-> & _ & ->). split; [reflexivity|].
      rewrite !length_app, Hlen. reflexivity.
Qed.

Lemma ti6_edges_nonneg :
  forall e, In e (g_edges (ti_graph ti6)) ->
    (0 < factor (e_data e))%Q /\ 0 <= weight (e_data e).
Proof.
  intros e He.
  assert (Hall : forallb (fun e => negb (Qle_bool (factor (e_data e)) 0) && (0 <=? weight (e_data e)))
                   (g_edges (ti_graph ti6)) = true) by (vm_compute; reflexivity).
  rewrite forallb_forall in Hall. apply Hall, andb_prop in He as [H1 H2].
  split; [|now apply Z.leb_le].
  apply Qnot_le_lt. intros Hle. apply Qle_bool_iff in Hle. now rewrite Hle in H1.
Qed.

Lemma C2_witness :
  (pr_rests (mk_path_report []
     [((2, 1), 2%Q, 3%Q, "Plain"%string); ((3, 1), 1%Q, 5%Q, "Forest"%string)]
     [(1, 1); (2, 1); (3, 1); (4, 1)]) = []) /\
  List.length (pr_rests (mk_path_report
     [((2, 1), 1%Q, 1%Q, "Plain"%string); ((3, 1), 1%Q, 2%Q, "Forest"%string);
      ((4, 1), 1%Q, 2%Q, "Forest"%string)]
     [((2, 1), 2%Q, 3%Q, "Plain"%string); ((3, 1), 1%Q, 5%Q, "Forest"%string)]
     [(1, 1); (2, 1); (3, 1); (4, 1)])) = 3%nat.
Proof.
  split.
  - refine (proj1 (C2_zero_budget_disables_rests ti6 (1, 1) (4, 1) 1 0 _ _) _);
      [vm_compute; reflexivity | reflexivity].
  - refine (proj2 (C2_zero_budget_disables_rests ti6 (1, 1) (4, 1) 1 (-1) _ _) _ _ _ _);
      [vm_compute; reflexivity | reflexivity | discriminate | |
       exact ti6_edges_nonneg].
    intros z Hz. vm_compute in Hz. injection Hz as <-. lia.
Defined.

(** ** C3 *)

Lemma coord_eqb_eq a b : coord_eqb a b = true <-> a = b.
Proof.
  destruct a as [a1 a2], b as [b1 b2]. unfold coord_eqb. simpl.
  rewrite andb_true_iff, !Z.eqb_eq. split; [intros [-> ->]; reflexivity|].
  intros H. injection H as -> ->. auto.
Qed.

Lemma last_cons_default {A} (x : A) l d1 d2 : last (x :: l) d1 = last (x :: l) d2.
Proof.
  revert x. induction l as [|y l IH]; intros x; [reflexivity|].
  change (last (y :: l) d1 = last (y :: l) d2). apply IH.
Qed.

(** C3 (corrected): a stage entry is anchored at [last_node], the path node
    immediately before the node at which it is emitted: the start of the
    edge whose processing closes the stage (an edge whose terrain differs
    from the stage terrain, or the edge into the final node). *)
Theorem C3_stage_anchor_is_closing_edge_start :
  forall ti s t pl rest r, read_path ti s t pl rest = Ok r ->
  forall e, In e (pr_stages r) ->
  exists pre b post d,
    pr_nodes r = pre ++ se_node e :: b :: post /\
    edge_lookup (g_edges (ti_graph ti)) (se_node e) b = Some d /\
    (terrain d <> se_terrain e \/ b = last (pr_nodes r) b).
Proof.
  intros ti s t pl rest r Hr.
  apply read_path_segment, segment_inv in Hr as (first & tl & lbl & st & Hnl & Hf & ->).
  simpl. rewrite Hnl in *.
  set (final := last (first :: tl) first) in Hf.
  enough (Hinv : last_node st = last (first :: tl) first /\
    forall e, In e (stages st) -> exists pre b post d,
      first :: tl = pre ++ se_node e :: b :: post /\
      edge_lookup (g_edges (ti_graph ti)) (se_node e) b = Some d /\
      (terrain d <> se_terrain e \/ b = final)).
  { intros e He. destruct (proj2 Hinv e He) as (pre & b & post & d & H1 & H2 & H3).
    exists pre, b, post, d. split; [exact H1|]. split; [exact H2|].
    destruct H3 as [H3|H3]; [now left|right].
    rewrite H3. apply last_cons_default. }
  revert Hf.
  apply (foldM_inv_prefix _ (fun pre st =>
    last_node st = last (first :: pre) first /\
    forall e, In e (stages st) -> exists pre' b post d,
      first :: pre = pre' ++ se_node e :: b :: post /\
      edge_lookup (g_edges (ti_graph ti)) (se_node e) b = Some d /\
      (terrain d <> se_terrain e \/ b = final))).
  - split; [reflexivity|]. intros e [].
  - intros pre x post st1 st2 _ [Hlast IH] Hs.
    apply seg_step_spec in Hs as (d & sz & Hd & _ & Hnode & _ & _ & Hstage).
    assert (Happ : first :: pre ++ [x] =
                   removelast (first :: pre) ++ [last (first :: pre) first; x]).
    { change (first :: pre ++ [x]) with ((first :: pre) ++ [x]).
      rewrite (app_removelast_last first (l := first :: pre)) at 1 by discriminate.
      now rewrite <- app_assoc. }
    split.
    { rewrite Hnode. change (first :: pre ++ [x]) with ((first :: pre) ++ [x]).
      symmetry. apply last_last. }
    assert (Hold : forall e, In e (stages st1) -> exists pre' b post d,
      first :: pre ++ [x] = pre' ++ se_node e :: b :: post /\
      edge_lookup (g_edges (ti_graph ti)) (se_node e) b = Some d /\
      (terrain d <> se_terrain e \/ b = final)).
    { intros e He. destruct (IH e He) as (pre' & b & post' & d' & H1 & H2 & H3).
      exists pre', b, (post' ++ [x]), d'. repeat split; auto.
      change (first :: pre ++ [x]) with ((first :: pre) ++ [x]).
      rewrite H1. now rewrite <- app_assoc. }
    destruct (negb (String.eqb (terrain d) (stage_terrain st1)) || coord_eqb x final)
      eqn:Ec.
    + destruct Hstage as (Hst & _ & _). rewrite Hst. intros e He.
      apply in_app_or in He as [He | [<- | []]]; [now apply Hold|].
      exists (removelast (first :: pre)), x, [], d. simpl se_node. simpl se_terrain.
      rewrite Hlast. split; [exact Happ|]. split; [rewrite <- Hlast; exact Hd|].
      apply orb_true_iff in Ec as [Ec|Ec].
      * left. intros Heq. rewrite Heq, String.eqb_refl in Ec. discriminate Ec.
      * right. now apply coord_eqb_eq.
    + destruct Hstage as (Hst & _ & _). rewrite Hst. exact Hold.
Qed.

Lemma C3_witness :
  exists pre b post d,
    [(1, 1); (2, 1); (3, 1); (4, 1)] = pre ++ (2, 1) :: b :: post /\
    edge_lookup (g_edges (ti_graph ti6)) (2, 1) b = Some d /\
    (terrain d <> "Plain"%string \/ b = last [(1, 1); (2, 1); (3, 1); (4, 1)] b).
Proof.
  exact (C3_stage_anchor_is_closing_edge_start ti6 (1, 1) (4, 1) 1 0 _
           ti6_run_rest0 ((2, 1), 2%Q, 3%Q, "Plain"%string) (or_introl eq_refl)).
Defined.

(** ** C4 *)

Lemma sum_distance_snoc l e :
  (sum_distance (l ++ [e]) == sum_distance l + se_distance e)%Q.
Proof.
  induction l as [|a l IH]; unfold sum_distance in *; simpl.
  - ring.
  - rewrite IH. ring.
Qed.

Lemma path_distance_cons2 G z pl a b l :
  path_distance G z pl (a :: b :: l) =
  match edge_lookup (g_edges G) a b with
  | Some d => (pl * factor d * inject_Z z + path_distance G z pl (b :: l))%Q
  | None => path_distance G z pl (b :: l)
  end.
Proof. reflexivity. Qed.

Lemma path_distance_snoc G z pl a l x d :
  edge_lookup (g_edges G) (last (a :: l) a) x = Some d ->
  (path_distance G z pl ((a :: l) ++ [x]) ==
   path_distance G z pl (a :: l) + pl * factor d * inject_Z z)%Q.
Proof.
  revert a. induction l as [|b l IH]; intros a Hd.
  - simpl in Hd |- *. rewrite Hd. ring.
  - change (last (a :: b :: l) a) with (last (b :: l) a) in Hd.
    rewrite (last_cons_default b l a b) in Hd.
    change ((a :: b :: l) ++ [x]) with (a :: b :: (l ++ [x])).
    specialize (IH b Hd). cbn [app] in IH.
    rewrite !path_distance_cons2.
    destruct (edge_lookup (g_edges G) a b); rewrite IH; ring.
Qed.

(** C4 (corrected): the stage distances of [read_path] add up to the plain
    sum of the per-edge distances of the whole path, but the rest distances
    add up to the distance of the path only up to the node of the last rest
    (the first node when there is none): the distance walked after the last
    rest (the final, partial day) is in no rest entry. *)
Theorem C4_stage_sum_total_rest_sum_to_last_rest :
  forall ti s t pl rest r z, ti_step ti = Some z ->
  read_path ti s t pl rest = Ok r ->
  (sum_distance (pr_stages r) == path_distance (ti_graph ti) z pl (pr_nodes r))%Q /\
  exists k,
    (sum_distance (pr_rests r) ==
     path_distance (ti_graph ti) z pl (firstn (S k) (pr_nodes r)))%Q /\
    match rev (pr_rests r) with
    | [] => k = 0%nat
    | e :: _ => nth k (pr_nodes r) (0, 0) = se_node e
    end.
Proof.
  intros ti s t pl rest r z Hz Hr.
  apply read_path_segment, segment_inv in Hr as (first & tl & lbl & st & Hnl & Hf & ->).
  simpl. rewrite Hnl in *. rewrite Hz in Hf.
  set (final := last (first :: tl) first) in Hf.
  set (G := ti_graph ti) in *.
  enough (Hinv :
    (sum_distance (stages st) + stage_distance st ==
     path_distance G z pl (first :: tl))%Q /\
    (forall pre0 x, tl = pre0 ++ [x] -> x = final -> stage_distance st = 0%Q) /\
    exists k, (k <= List.length tl)%nat /\
      (sum_distance (rests st) == path_distance G z pl (firstn (S k) (first :: tl)))%Q /\
      match rev (rests st) with
      | [] => k = 0%nat
      | e :: _ => nth k (first :: tl) (0, 0) = se_node e
      end).
  { destruct Hinv as (Hst & Hlast & k & _ & Hrs & Hk). split; [|exists k; auto].
    rewrite <- Hst.
    destruct (rev tl) as [|x pre0r] eqn:Etl.
    - apply (f_equal (@rev _)) in Etl. rewrite rev_involutive in Etl. simpl in Etl.
      subst tl. simpl in Hf. injection Hf as <-. simpl. unfold sum_distance. simpl. ring.
    - assert (Htl : tl = rev pre0r ++ [x])
        by (rewrite <- (rev_involutive tl), Etl; reflexivity).
      rewrite (Hlast (rev pre0r) x Htl).
      + ring.
      + unfold final. rewrite Htl. change (first :: rev pre0r ++ [x])
          with ((first :: rev pre0r) ++ [x]). symmetry. apply last_last. }
  apply (foldM_inv_prefix _ (fun pre st =>
    last_node st = last (first :: pre) first /\
    (sum_distance (stages st) + stage_distance st ==
     path_distance G z pl (first :: pre))%Q /\
    (forall pre0 x, pre = pre0 ++ [x] -> x = final -> stage_distance st = 0%Q) /\
    (sum_distance (rests st) + rest_distance st ==
     path_distance G z pl (first :: pre))%Q /\
    exists k, (k <= List.length pre)%nat /\
      (sum_distance (rests st) == path_distance G z pl (firstn (S k) (first :: pre)))%Q /\
      match rev (rests st) with
      | [] => k = 0%nat
      | e :: _ => nth k (first :: pre) (0, 0) = se_node e
      end)) in Hf.
  1: destruct Hf as (_ & H1 & H2 & _ & H3); auto.
  - split; [reflexivity|]. split; [unfold sum_distance; simpl; ring|].
    split; [intros pre0 x H; destruct pre0; discriminate|].
    split; [unfold sum_distance; simpl; ring|].
    exists 0%nat. split; [lia|]. split; [unfold sum_distance; simpl; ring|reflexivity].
  - intros pre x post st1 st2 _ (Hlast & Hst & _ & Hrs & k & Hk & Hrk & Hnth) Hs.
    apply seg_step_spec in Hs as (d & sz & Hd & Hsz & Hnode & _ & Hrest & Hstage).
    injection Hsz as <-.
    rewrite Hlast in Hd.
    pose proof (path_distance_snoc G z pl first pre x d Hd) as Hsnoc.
    change (first :: pre ++ [x]) with ((first :: pre) ++ [x]).
    split.
    { rewrite Hnode. symmetry. apply last_last. }
    split.
    { rewrite Hsnoc, <- Hst.
      destruct (negb _ || _); destruct Hstage as (-> & -> & _).
      - rewrite sum_distance_snoc. unfold se_distance. cbn [fst snd]. ring.
      - ring. }
    split.
    { intros pre0 y Hy Hyf. apply app_inj_tail in Hy as [_ <-].
      rewrite (proj2 (coord_eqb_eq x final) Hyf), orb_true_r in Hstage.
      apply Hstage. }
    destruct (py_truthy rest && _).
    + destruct Hrest as (-> & -> & _).
      split.
      { rewrite sum_distance_snoc, Hsnoc, <- Hrs. unfold se_distance. cbn [fst snd]. ring. }
      exists (S (List.length pre)). split; [rewrite length_app; simpl; lia|].
      split.
      * rewrite firstn_all2 by (simpl; rewrite length_app; simpl; lia).
        rewrite sum_distance_snoc, Hsnoc, <- Hrs. unfold se_distance. cbn [fst snd]. ring.
      * rewrite rev_app_distr. simpl.
        rewrite app_nth2 by (simpl; lia). simpl. now rewrite Nat.sub_diag.
    + destruct Hrest as (-> & -> & _).
      split; [rewrite Hsnoc, <- Hrs; ring|].
      exists k. split; [rewrite length_app; lia|]. split.
      * rewrite firstn_app, Hrk.
        replace (S k - List.length (first :: pre))%nat with 0%nat by (simpl; lia).
        now rewrite app_nil_r.
      * destruct (rev (rests st1)); [exact Hnth|].
        rewrite app_nth1 by (simpl; lia). exact Hnth.
Qed.

Lemma C4_witness :
  Qeq (sum_distance [((2, 1), 2%Q, 3%Q, "Plain"%string); ((3, 1), 1%Q, 5%Q, "Forest"%string)])
      (path_distance (ti_graph ti6) 1 1 [(1, 1); (2, 1); (3, 1); (4, 1)]) /\
  exists k,
    Qeq (sum_distance [((3, 1), 2%Q, 3%Q, "Forest"%string)])
        (path_distance (ti_graph ti6) 1 1 (firstn (S k) [(1, 1); (2, 1); (3, 1); (4, 1)])) /\
    match rev [((3, 1), 2%Q, 3%Q, "Forest"%string)] with
    | [] => k = 0%nat
    | e :: _ => nth k [(1, 1); (2, 1); (3, 1); (4, 1)] (0, 0) = se_node e
    end.
Proof.
  refine (C4_stage_sum_total_rest_sum_to_last_rest ti6 (1, 1) (4, 1) 1 3
            (mk_path_report [((3, 1), 2%Q, 3%Q, "Forest"%string)]
               [((2, 1), 2%Q, 3%Q, "Plain"%string); ((3, 1), 1%Q, 5%Q, "Forest"%string)]
               [(1, 1); (2, 1); (3, 1); (4, 1)]) 1 _ _);
    vm_compute; reflexivity.
Defined.

(** ** C5 *)

Lemma foldM_ok_inv {A S} (f : S -> A -> result S) (P : S -> Prop) l s0 s :
  P s0 -> (forall x s s', P s -> f s x = Ok s' -> P s') ->
  foldM f s0 l = Ok s -> P s.
Proof. intros H0 Hs. apply foldM_inv; [exact H0 | intros x t t' _; apply Hs]. Qed.

(** Every graph produced by [read_edges] is reached from its start graph
    (the nodes, no edges) by successful [add_star_edge] steps. *)
Lemma read_edges_inv (P : graph -> Prop) ti table ti' :
  P (mk_graph (g_nodes (ti_graph ti)) []) ->
  (forall z G s tf G', ti_step ti = Some z -> In tf (star_targets z s) ->
     P G -> add_star_edge table s G tf = Ok G' -> P G') ->
  read_edges ti table = Ok ti' ->
  P (ti_graph ti') /\ ti_density ti' = table /\ ti_image ti' = ti_image ti /\
  ti_step ti' = ti_step ti.
Proof.
  intros H0 Hstep. unfold read_edges.
  destruct (ti_step ti) as [step|] eqn:Estep; simpl; [|discriminate].
  destruct (py_range _ _ step) as [is|]; simpl; [|discriminate].
  destruct (foldM _ _ is) as [G|] eqn:E; simpl; [|discriminate].
  intros H. injection H as <-. simpl. repeat split.
  revert E. apply foldM_ok_inv; [exact H0|].
  intros i G1 G2 HG1 Hi.
  destruct (py_range _ _ step) as [js|]; simpl in Hi; [|discriminate].
  revert Hi. apply foldM_ok_inv; [exact HG1|].
  intros j G3 G4 HG3 Hj.
  refine (foldM_inv (add_star_edge table (i, j)) P (star_targets step (i, j))
            G3 G4 HG3 _ Hj).
  intros tf G5 G6 Htf HG5 Hadd.
  exact (Hstep step G5 (i, j) tf G6 eq_refl Htf HG5 Hadd).
Qed.

Lemma add_edge_list_in es u v d e :
  In e (add_edge_list es u v d) -> In e es \/ e = mk_edge u v d.
Proof.
  induction es as [|e' es IH]; simpl.
  - intros [<-|[]]. now right.
  - destruct (same_edge u v e'); simpl.
    + intros [<-|He]; [now right | now left; right].
    + intros [<-|He]; [now left; left|].
      destruct (IH He); [left; now right | now right].
Qed.

Lemma dict_get_in d c v : dict_get d c = Some v -> exists k, In (k, v) d.
Proof.
  induction d as [|[k v'] d IH]; simpl; [discriminate|].
  destruct (color_eqb k c).
  - intros H. injection H as <-. eauto.
  - intros H. destruct (IH H) as [k' Hk]. eauto.
Qed.

Lemma py_int_nonneg q : 0 <= Qnum q -> 0 <= py_int q.
Proof. intros H. unfold py_int. apply Z.quot_pos; lia. Qed.

(** C5 (confirmed): for a terrain table with non-negative costs, every edge
    built by [read_edges] carries the label of the endpoint with the weakly
    lower cost (the sweep source [e_src] on ties) and the weight
    [int(cost * factor)] of that endpoint, which is a non-negative
    integer. *)
Theorem C5_edge_terrain_and_weight :
  forall ti table ti', read_edges ti table = Ok ti' ->
  (forall c l k, In (c, (l, k)) table -> 0 <= k) ->
  forall e, In e (g_edges (ti_graph ti')) ->
  exists cs ct ds dt,
    node_lookup (g_nodes (ti_graph ti')) (e_src e) = Some cs /\
    dict_get table cs = Some ds /\
    node_lookup (g_nodes (ti_graph ti')) (e_dst e) = Some ct /\
    dict_get table ct = Some dt /\
    (factor (e_data e) = 1%Q \/ factor (e_data e) = (3#2)%Q) /\
    let d := if snd dt <? snd ds then dt else ds in
    terrain (e_data e) = fst d /\
    weight (e_data e) = py_int (inject_Z (snd d) * factor (e_data e)) /\
    0 <= weight (e_data e).
Proof.
  intros ti table ti' Hre Hcost.
  set (N := g_nodes (ti_graph ti)).
  set (Pe := fun (e : edge) => exists cs ct ds dt,
    node_lookup N (e_src e) = Some cs /\ dict_get table cs = Some ds /\
    node_lookup N (e_dst e) = Some ct /\ dict_get table ct = Some dt /\
    (factor (e_data e) = 1%Q \/ factor (e_data e) = (3#2)%Q) /\
    let d := if snd dt <? snd ds then dt else ds in
    terrain (e_data e) = fst d /\
    weight (e_data e) = py_int (inject_Z (snd d) * factor (e_data e)) /\
    0 <= weight (e_data e)).
  destruct (read_edges_inv (fun G => g_nodes G = N /\ forall e, In e (g_edges G) -> Pe e)
              ti table ti') as ([HN Hall] & _); auto.
  - split; [reflexivity|]. intros e [].
  - intros z G s [t f] G' _ Htf [HN Hall] Hadd.
    unfold add_star_edge, get_density, node_color in Hadd.
    destruct (node_lookup (g_nodes G) s) as [cs|] eqn:Ecs; simpl in Hadd; [|discriminate].
    destruct (dict_get table cs) as [ds|] eqn:Eds; simpl in Hadd; [|discriminate].
    destruct (node_lookup (g_nodes G) t) as [ct|] eqn:Ect; simpl in Hadd; [|discriminate].
    destruct (dict_get table ct) as [dt|] eqn:Edt; simpl in Hadd; [|discriminate].
    injection Hadd as <-. simpl. split; [exact HN|].
    intros e He. apply add_edge_list_in in He as [He | ->]; [now apply Hall|].
    exists cs, ct, ds, dt. simpl e_src. simpl e_dst. rewrite <- HN.
    split; [exact Ecs|]. split; [exact Eds|]. split; [exact Ect|]. split; [exact Edt|].
    split.
    { simpl in Htf. simpl.
      destruct Htf as [H|[H|[H|[H|[]]]]]; injection H as _ <-; auto. }
    simpl. split; [reflexivity|]. split; [reflexivity|].
    apply py_int_nonneg.
    assert (Hk : 0 <= snd (if snd dt <? snd ds then dt else ds)).
    { destruct (snd dt <? snd ds).
      - destruct (dict_get_in _ _ _ Edt) as [k Hk].
        destruct dt as [l c]. exact (Hcost k l c Hk).
      - destruct (dict_get_in _ _ _ Eds) as [k Hk].
        destruct ds as [l c]. exact (Hcost k l c Hk). }
    simpl in Htf.
    destruct Htf as [H|[H|[H|[H|[]]]]]; injection H as _ <-; simpl.
    all: apply Z.mul_nonneg_nonneg; [exact Hk | lia].
  - intros e He. rewrite HN. apply Hall. exact He.
Qed.

Lemma table6_costs_nonneg : forall c l k, In (c, (l, k)) table6 -> 0 <= k.
Proof.
  intros c l k H. simpl in H.
  destruct H as [H|[H|[]]]; injection H as _ _ <-; lia.
Qed.

Lemma C5_witness :
  exists cs ct ds dt,
    node_lookup (g_nodes (ti_graph ti6)) (1, 1) = Some cs /\
    dict_get table6 cs = Some ds /\
    node_lookup (g_nodes (ti_graph ti6)) (2, 1) = Some ct /\
    dict_get table6 ct = Some dt /\
    (factor (mk_edge_data 1 "Plain" 1) = 1%Q \/
     factor (mk_edge_data 1 "Plain" 1) = (3#2)%Q) /\
    let d := if snd dt <? snd ds then dt else ds in
    terrain (mk_edge_data 1 "Plain" 1) = fst d /\
    weight (mk_edge_data 1 "Plain" 1) =
      py_int (inject_Z (snd d) * factor (mk_edge_data 1 "Plain" 1)) /\
    0 <= weight (mk_edge_data 1 "Plain" 1).
Proof.
  refine (C5_edge_terrain_and_weight ti6_nodes table6 ti6 _ table6_costs_nonneg
            (mk_edge (1, 1) (2, 1) (mk_edge_data 1 "Plain" 1)) _).
  - vm_compute. reflexivity.
  - vm_compute. left. reflexivity.
Defined.

(** ** C6 *)

(** C6 (corrected): on the 3 x 3 image with step 1, [read_nodes] samples only
    (0,0), (0,1), (1,0), (1,1) ([range(0, width - 1)]), [read_edges] builds
    no edge (its sweep [range(1, 3 - 1 - 1)] is empty), and the query
    (0,0) -> (1,0) fails with [NetworkXNoPath] whatever the pixel length and
    rest budget. *)
Theorem C6_no_edge_no_path :
  forall pl rest, exists ti,
    build img3 1 table3 = Ok ti /\
    map fst (g_nodes (ti_graph ti)) = [(0, 0); (0, 1); (1, 0); (1, 1)] /\
    g_edges (ti_graph ti) = [] /\
    read_path ti (0, 0) (1, 0) pl rest = Err NetworkXNoPath.
Proof.
  intros pl rest.
  destruct (build img3 1 table3) as [ti|] eqn:E; [|vm_compute in E; discriminate].
  exists ti. split; [reflexivity|].
  vm_compute in E. injection E as <-.
  split; [reflexivity|]. split; [reflexivity|].
  vm_compute. reflexivity.
Qed.

(** ** C9 *)

Lemma py_range_ok start stop step :
  step <> 0 ->
  py_range start stop step =
  Ok (map (fun k => start + Z.of_nat k * step)
          (seq 0 (Z.to_nat (range_len start stop step)))).
Proof. intros H. unfold py_range. now rewrite (proj2 (Z.eqb_neq step 0) H). Qed.

Lemma py_range_empty start stop step :
  step <> 0 -> range_len start stop step <= 0 -> py_range start stop step = Ok [].
Proof.
  intros H Hl. rewrite py_range_ok by exact H.
  now replace (Z.to_nat (range_len start stop step)) with 0%nat by lia.
Qed.

Lemma range_len_pos_empty start stop step :
  0 < step -> stop <= start -> range_len start stop step <= 0.
Proof.
  intros Hs Hle. unfold range_len. rewrite (proj2 (Z.ltb_lt 0 step) Hs).
  assert (H : (stop - start + step - 1) / step < 1)
    by (apply Z.div_lt_upper_bound; lia).
  lia.
Qed.

Lemma range_len_neg_empty start stop step :
  step < 0 -> start <= stop -> range_len start stop step <= 0.
Proof.
  intros Hs Hle. unfold range_len.
  rewrite (proj2 (Z.ltb_ge 0 step)) by lia.
  assert (H : (start - stop - step - 1) / - step < 1)
    by (apply Z.div_lt_upper_bound; lia).
  lia.
Qed.

Lemma foldM_total {A S} (f : S -> A -> result S) l s :
  (forall s x, exists s', f s x = Ok s') -> exists s', foldM f s l = Ok s'.
Proof.
  intros Hf. revert s. induction l as [|x l IH]; intros s; simpl; [eauto|].
  destruct (Hf s x) as [s' ->]. simpl. apply IH.
Qed.

Lemma foldM_const {A S} (f : S -> A -> result S) l s :
  (forall x, In x l -> f s x = Ok s) -> foldM f s l = Ok s.
Proof.
  induction l as [|x l IH]; intros Hf; simpl; [reflexivity|].
  rewrite (Hf x (or_introl eq_refl)). simpl. apply IH. intros y Hy. apply Hf. now right.
Qed.

(** The nodes built by [read_nodes] when one of the two ranges is empty. *)
Lemma read_nodes_no_nodes ti step :
  step <> 0 ->
  range_len 0 (width (ti_image ti) - 1) step <= 0 \/
  range_len 0 (height (ti_image ti) - 1) step <= 0 ->
  exists ti', read_nodes ti step = Ok ti' /\ g_nodes (ti_graph ti') = [].
Proof.
  intros Hs [Hw|Hh]; unfold read_nodes.
  - rewrite (py_range_empty _ _ _ Hs Hw). simpl. eauto.
  - rewrite py_range_ok by exact Hs. simpl.
    rewrite foldM_const.
    + simpl. eauto.
    + intros i _. rewrite (py_range_empty _ _ _ Hs Hh). reflexivity.
Qed.

(** C9: [read_nodes] validates nothing.  It raises (ValueError
    from [range]) exactly when [step = 0].  A negative step or a degenerate
    image does not raise: with [step > 0] and width or height at most 1 it
    creates no node; with [step < 0] it creates no node on an image with at
    least one row or column, and the single node (0,0) on a 0 x 0 image. *)
Theorem C9_only_zero_step_raises :
  forall ti step,
  (step = 0 -> read_nodes ti step = Err ValueError) /\
  (step <> 0 -> exists ti', read_nodes ti step = Ok ti' /\
     (0 < step -> width (ti_image ti) <= 1 \/ height (ti_image ti) <= 1 ->
        g_nodes (ti_graph ti') = []) /\
     (step < 0 -> 0 <= width (ti_image ti) -> 0 <= height (ti_image ti) ->
        1 <= width (ti_image ti) \/ 1 <= height (ti_image ti) ->
        g_nodes (ti_graph ti') = []) /\
     (step < 0 -> width (ti_image ti) = 0 -> height (ti_image ti) = 0 ->
        g_nodes (ti_graph ti') = [((0, 0), pixel_color (ti_image ti) 0 0)])).
Proof.
  intros ti step. split.
  - intros ->. reflexivity.
  - intros Hs.
    destruct (read_nodes ti step) as [ti'|] eqn:E.
    2:{ exfalso. revert E. unfold read_nodes. rewrite py_range_ok by exact Hs.
        cbn [bind].
        match goal with
        | |- bind (foldM ?f ?s0 ?l) _ = Err _ -> False =>
            destruct (foldM_total f l s0) as [st ->]; [|discriminate]
        end.
        intros st i. cbn beta. rewrite py_range_ok by exact Hs. cbn [bind].
        apply foldM_total. intros [dd G] j. unfold read_node. eauto. }
    exists ti'. split; [reflexivity|]. split; [|split].
    + intros Hpos Hdeg.
      destruct (read_nodes_no_nodes ti step Hs) as (ti'' & E' & Hn).
      { destruct Hdeg; [left|right]; apply range_len_pos_empty; lia. }
      rewrite E in E'. injection E' as ->. exact Hn.
    + intros Hneg Hw Hh Hdeg.
      destruct (read_nodes_no_nodes ti step Hs) as (ti'' & E' & Hn).
      { destruct Hdeg; [left|right]; apply range_len_neg_empty; lia. }
      rewrite E in E'. injection E' as ->. exact Hn.
    + intros Hneg Hw Hh. revert E. unfold read_nodes.
      assert (H1 : range_len 0 (0 - 1) step = 1).
      { unfold range_len. rewrite (proj2 (Z.ltb_ge 0 step)) by lia.
        replace (0 - (0 - 1) - step - 1) with (- step) by lia.
        apply Z.div_same. lia. }
      rewrite Hw, Hh, !py_range_ok, H1 by exact Hs. simpl.
      intros E. injection E as <-. reflexivity.
Qed.

Lemma C9_witness :
  read_nodes (new_top_image img3) 0 = Err ValueError /\
  exists ti', read_nodes (new_top_image img3) (-1) = Ok ti' /\
     (0 < -1 -> 3 <= 1 \/ 3 <= 1 -> g_nodes (ti_graph ti') = []) /\
     (-1 < 0 -> 0 <= 3 -> 0 <= 3 -> 1 <= 3 \/ 1 <= 3 -> g_nodes (ti_graph ti') = []) /\
     (-1 < 0 -> 3 = 0 -> 3 = 0 ->
        g_nodes (ti_graph ti') = [((0, 0), pixel_color img3 0 0)]).
Proof.
  split.
  - exact (proj1 (C9_only_zero_step_raises (new_top_image img3) 0) eq_refl).
  - exact (proj2 (C9_only_zero_step_raises (new_top_image img3) (-1)) ltac:(lia)).
Defined.

(** ** C8 *)

Lemma py_range_in_pos start stop step x :
  0 < step ->
  In x (map (fun k => start + Z.of_nat k * step)
            (seq 0 (Z.to_nat (range_len start stop step)))) <->
  start <= x < stop /\ (x - start) mod step = 0.
Proof.
  intros Hs. unfold range_len. rewrite (proj2 (Z.ltb_lt 0 step) Hs).
  rewrite in_map_iff. split.
  - intros (k & <- & Hk). apply in_seq in Hk as [_ Hk]. simpl in Hk.
    assert (Hk' : Z.of_nat k + 1 <= (stop - start + step - 1) / step) by lia.
    pose proof (Z.mul_div_le (stop - start + step - 1) step Hs) as Hd.
    split; [nia|].
    replace (start + Z.of_nat k * step - start) with (Z.of_nat k * step) by lia.
    apply Z.mod_mul. lia.
  - intros [[Hlo Hhi] Hmod].
    apply Z.mod_divide in Hmod as [k Hk]; [|lia].
    assert (Hk0 : 0 <= k) by nia.
    exists (Z.to_nat k). split; [rewrite Z2Nat.id by exact Hk0; lia|].
    apply in_seq. split; [lia|]. simpl.
    assert (Hkn : k + 1 <= (stop - start + step - 1) / step)
      by (apply Z.div_le_lower_bound; nia).
    lia.
Qed.

(** Success of a loop whose steps succeed independently of the state. *)
Lemma foldM_ok_iff {A S} (f : S -> A -> result S) (Inv : S -> Prop) (Q : A -> Prop) :
  (forall s x s', Inv s -> f s x = Ok s' -> Inv s') ->
  (forall s x, Inv s -> ((exists s', f s x = Ok s') <-> Q x)) ->
  forall l s0, Inv s0 ->
  ((exists s, foldM f s0 l = Ok s) <-> forall x, In x l -> Q x).
Proof.
  intros Hinv Hok l. induction l as [|x l IH]; intros s0 H0; simpl.
  - split; [intros _ y []|eauto].
  - destruct (f s0 x) as [s1|e] eqn:E; simpl.
    + assert (Hx : Q x) by (apply (Hok s0 x H0); eauto).
      rewrite (IH s1 (Hinv s0 x s1 H0 E)). split.
      * intros Hall y [<-|Hy]; auto.
      * intros Hall y Hy. apply Hall. now right.
    + split; [intros [s Hs]; discriminate|].
      intros Hall. destruct (proj2 (Hok s0 x H0) (Hall x (or_introl eq_refl))) as [s' Hs'].
      congruence.
Qed.

Lemma foldM_err {A S} (f : S -> A -> result S) (err : py_error) :
  (forall s x e, f s x = Err e -> e = err) ->
  forall l s0 e, foldM f s0 l = Err e -> e = err.
Proof.
  intros Hf l. induction l as [|x l IH]; intros s0 e; simpl; [discriminate|].
  destruct (f s0 x) as [s1|e'] eqn:E; simpl; [apply IH|].
  intros H. injection H as <-. exact (Hf _ _ _ E).
Qed.

Lemma add_star_edge_ok table s G tf :
  (exists G', add_star_edge table s G tf = Ok G') <->
  colour_known table G s /\ colour_known table G (fst tf).
Proof.
  destruct tf as [t f]. unfold add_star_edge, get_density, node_color, colour_known.
  simpl.
  destruct (node_lookup (g_nodes G) s) as [cs|]; simpl;
    [|split; [intros [G' H]; discriminate | intros [(c & d & H & _) _]; discriminate]].
  destruct (dict_get table cs) as [ds|] eqn:Eds; simpl;
    [|split; [intros [G' H]; discriminate
             | intros [(c & d & H & H') _]; injection H as <-; congruence]].
  destruct (node_lookup (g_nodes G) t) as [ct|]; simpl;
    [|split; [intros [G' H]; discriminate | intros [_ (c & d & H & _)]; discriminate]].
  destruct (dict_get table ct) as [dt|] eqn:Edt; simpl.
  - split; [intros _; split; eauto | eauto].
  - split; [intros [G' H]; discriminate
           | intros [_ (c & d & H & H')]; injection H as <-; congruence].
Qed.

Lemma add_star_edge_err table s G tf e :
  add_star_edge table s G tf = Err e -> e = KeyError.
Proof.
  destruct tf as [t f]. unfold add_star_edge, get_density, node_color.
  destruct (node_lookup (g_nodes G) s); simpl; [|congruence].
  destruct (dict_get table _); simpl; [|congruence].
  destruct (node_lookup (g_nodes G) t); simpl; [|congruence].
  destruct (dict_get table _); simpl; congruence.
Qed.

Lemma add_star_edge_nodes table s G tf G' :
  add_star_edge table s G tf = Ok G' -> g_nodes G' = g_nodes G.
Proof.
  destruct tf as [t f]. unfold add_star_edge.
  destruct (get_density table G s t); simpl; [|discriminate].
  intros H. injection H as <-. reflexivity.
Qed.

Lemma colour_known_nodes table G G' v :
  g_nodes G = g_nodes G' -> colour_known table G v <-> colour_known table G' v.
Proof. unfold colour_known. intros ->. reflexivity. Qed.

Section ReadEdgesSuccess.

Variable table : density_dict.
Variable N : list (coord * color).
Variable step : Z.
Hypothesis step_pos : 0 < step.

Lemma star_fold_inv s G G' :
  g_nodes G = N -> foldM (add_star_edge table s) G (star_targets step s) = Ok G' ->
  g_nodes G' = N.
Proof.
  intros HG. apply (foldM_ok_inv _ (fun G => g_nodes G = N)); [exact HG|].
  intros tf G1 G2 H1 H2. rewrite (add_star_edge_nodes _ _ _ _ _ H2). exact H1.
Qed.

Lemma star_fold_ok s G :
  g_nodes G = N ->
  ((exists G', foldM (add_star_edge table s) G (star_targets step s) = Ok G') <->
   forall tf, In tf (star_targets step s) ->
     colour_known table (mk_graph N []) s /\ colour_known table (mk_graph N []) (fst tf)).
Proof.
  apply (foldM_ok_iff _ (fun G => g_nodes G = N)
           (fun tf => colour_known table (mk_graph N []) s /\
                      colour_known table (mk_graph N []) (fst tf))).
  - intros G1 tf G2 H1 H2. rewrite (add_star_edge_nodes _ _ _ _ _ H2). exact H1.
  - intros G1 tf H1. rewrite add_star_edge_ok.
    rewrite !(colour_known_nodes table G1 (mk_graph N [])) by exact H1. reflexivity.
Qed.

Lemma column_fold_inv i js G G' :
  g_nodes G = N ->
  foldM (fun G j => foldM (add_star_edge table (i, j)) G (star_targets step (i, j))) G js
    = Ok G' -> g_nodes G' = N.
Proof.
  intros HG. apply (foldM_ok_inv _ (fun G => g_nodes G = N)); [exact HG|].
  intros j G1 G2 H1 H2. exact (star_fold_inv _ _ _ H1 H2).
Qed.

Lemma column_fold_ok i js G :
  g_nodes G = N ->
  ((exists G', foldM (fun G j => foldM (add_star_edge table (i, j)) G
                                   (star_targets step (i, j))) G js = Ok G') <->
   forall j, In j js -> forall tf, In tf (star_targets step (i, j)) ->
     colour_known table (mk_graph N []) (i, j) /\
     colour_known table (mk_graph N []) (fst tf)).
Proof.
  apply (foldM_ok_iff _ (fun G => g_nodes G = N)).
  - intros G1 j G2 H1 H2. exact (star_fold_inv _ _ _ H1 H2).
  - intros G1 j H1. exact (star_fold_ok (i, j) G1 H1).
Qed.

End ReadEdgesSuccess.

(** C8: [build_edges] raises TypeError before [build_nodes]; with a positive
    step it raises (KeyError) exactly when a node reached by the inset sweep,
    a grid source (i, j) with step <= i < width - step - 1 and
    step <= j < height - step - 1 or one of its forward star targets, has a
    colour missing from the supplied table. Colours of other nodes are never
    looked up, and no other error is raised. *)
Theorem C8_edges_fail_iff_swept_colour_missing ti table :
  (ti_step ti = None -> read_edges ti table = Err TypeError) /\
  forall step, ti_step ti = Some step -> 0 < step ->
  (forall e, read_edges ti table = Err e -> e = KeyError) /\
  ((exists ti', read_edges ti table = Ok ti') <->
   forall i j,
     step <= i < width (ti_image ti) - step - 1 ->
     step <= j < height (ti_image ti) - step - 1 ->
     (i - step) mod step = 0 -> (j - step) mod step = 0 ->
     forall tf, In tf (star_targets step (i, j)) ->
       colour_known table (ti_graph ti) (i, j) /\
       colour_known table (ti_graph ti) (fst tf)).
Proof.
  split.
  - intros H. unfold read_edges. rewrite H. reflexivity.
  - intros step Hs Hpos. assert (Hne : step <> 0) by lia.
    unfold read_edges. rewrite Hs. cbn [of_option bind].
    rewrite !(py_range_ok _ _ _ Hne). cbn [bind].
    set (is := map _ (seq 0 (Z.to_nat (range_len step (width (ti_image ti) - step - 1) step)))).
    set (js := map _ (seq 0 (Z.to_nat (range_len step (height (ti_image ti) - step - 1) step)))).
    split.
    + intros e.
      destruct (foldM _ _ is) as [G|e'] eqn:E; simpl; [discriminate|].
      intros [= <-]. revert E. apply foldM_err.
      intros G i e1. apply foldM_err.
      intros G1 j e2. apply foldM_err.
      intros G2 tf e3. apply add_star_edge_err.
    + set (N := g_nodes (ti_graph ti)).
      transitivity (exists G, foldM (fun G i =>
               foldM (fun G j => foldM (add_star_edge table (i, j)) G
                                      (star_targets step (i, j))) G js)
             (mk_graph N []) is = Ok G).
      { split.
        - intros [ti' H]. destruct (foldM _ _ is) as [G|e] eqn:E; [eauto | discriminate].
        - intros [G H]. rewrite H. eexists; reflexivity. }
      rewrite (foldM_ok_iff _ (fun G => g_nodes G = N)
                 (fun i => forall j, In j js -> forall tf, In tf (star_targets step (i, j)) ->
                    colour_known table (mk_graph N []) (i, j) /\
                    colour_known table (mk_graph N []) (fst tf))
                 (fun G i G' HG H => column_fold_inv table N step i js G G' HG H)
                 (fun G i HG => column_fold_ok table N step i js G HG)
                 is (mk_graph N []) eq_refl).
      assert (HN : g_nodes (mk_graph N []) = g_nodes (ti_graph ti)) by reflexivity.
      split.
        -- intros H i j Hi Hj Hmi Hmj tf Htf.
           rewrite <- !(colour_known_nodes table _ _ _ HN).
           apply (H i); [| |exact Htf].
           ++ unfold is. apply py_range_in_pos; [exact Hpos | split; assumption].
           ++ unfold js. apply py_range_in_pos; [exact Hpos | split; assumption].
        -- intros H i Hi j Hj tf Htf.
           rewrite !(colour_known_nodes table _ _ _ HN).
           unfold is in Hi. unfold js in Hj.
           apply py_range_in_pos in Hi as [Hi Hmi]; [|exact Hpos].
           apply py_range_in_pos in Hj as [Hj Hmj]; [|exact Hpos].
           exact (H i j Hi Hj Hmi Hmj tf Htf).
Qed.

Lemma C8_witness :
  read_edges (new_top_image img6) table6 = Err TypeError /\
  colour_known table6 (ti_graph ti6u_nodes) (4, 2).
Proof.
  split.
  - apply (proj1 (C8_edges_fail_iff_swept_colour_missing (new_top_image img6) table6)).
    reflexivity.
  - destruct (proj2 (C8_edges_fail_iff_swept_colour_missing ti6u_nodes table6) 1
                eq_refl ltac:(lia)) as [_ [Hok _]].
    refine (proj2 (Hok _ 3 2 _ _ _ _ ((4, 2), 1%Q) _)).
    + eexists. vm_compute. reflexivity.
    + split; vm_compute; congruence.
    + split; vm_compute; congruence.
    + reflexivity.
    + reflexivity.
    + cbn. left. reflexivity.
Defined.

(** *** Dijkstra from a source that does not reach the target *)

Lemma lookup_some_in {A} (l : list (coord * A)) v a :
  lookup l v = Some a -> In (v, a) l.
Proof.
  induction l as [|[k b] l IH]; simpl; [discriminate|].
  destruct (coord_eqb k v) eqn:E.
  - apply coord_eqb_eq in E as ->. intros [= ->]. now left.
  - intros H. right. exact (IH H).
Qed.

Lemma lookup_none_iff {A} (l : list (coord * A)) v :
  lookup l v = None <-> ~ In v (map fst l).
Proof.
  induction l as [|[k b] l IH]; simpl; [tauto|].
  destruct (coord_eqb k v) eqn:E.
  - apply coord_eqb_eq in E as ->. split; [discriminate | intros H; tauto].
  - rewrite IH. split; [|tauto]. intros H [Hk|Hk]; [|tauto].
    subst k. rewrite (proj2 (coord_eqb_eq v v) eq_refl) in E. discriminate.
Qed.

Lemma assoc_set_keys {A} (l : list (coord * A)) v a x :
  In x (map fst (assoc_set l v a)) <-> x = v \/ In x (map fst l).
Proof.
  induction l as [|[k b] l IH]; simpl.
  - split; [intros [<-|[]]; now left | intros [->|[]]; now left].
  - destruct (coord_eqb k v) eqn:E; simpl.
    + apply coord_eqb_eq in E as ->.
      split; [intros [<-|H]; auto | intros [->|[H|H]]; auto].
    + rewrite IH. tauto.
Qed.

Lemma node_lookup_in ns v c :
  node_lookup ns v = Some c -> In v (map fst ns).
Proof.
  induction ns as [|[k b] ns IH]; simpl; [discriminate|].
  destruct (coord_eqb k v) eqn:E.
  - apply coord_eqb_eq in E as ->. now left.
  - intros H. right. exact (IH H).
Qed.

Lemma has_node_in G v : has_node G v = true -> In v (map fst (g_nodes G)).
Proof.
  unfold has_node. destruct (node_lookup (g_nodes G) v) as [c|] eqn:E; [|discriminate].
  intros _. exact (node_lookup_in _ _ _ E).
Qed.

Lemma entry_leb_true a b : entry_leb a b = true -> ent_d a <= ent_d b.
Proof.
  unfold entry_leb. destruct (Z.ltb_spec (ent_d a) (ent_d b)); [lia|].
  destruct (Z.eqb_spec (ent_d a) (ent_d b)); simpl; [lia | discriminate].
Qed.

Lemma entry_leb_false a b : entry_leb a b = false -> ent_d b <= ent_d a.
Proof.
  unfold entry_leb. destruct (Z.ltb_spec (ent_d a) (ent_d b)); simpl; [discriminate | lia].
Qed.

Lemma min_entry_spec l m :
  In (min_entry m l) (m :: l) /\
  forall e, In e (m :: l) -> ent_d (min_entry m l) <= ent_d e.
Proof.
  revert m. induction l as [|x l IH]; intros m; simpl.
  - split; [now left | intros e [<-|[]]; lia].
  - destruct (entry_leb m x) eqn:E.
    + apply entry_leb_true in E.
      destruct (IH m) as [Hin Hmin]. split.
      * destruct Hin as [Hin|Hin]; [now left | right; right; exact Hin].
      * intros e [He|[He|He]].
        -- apply Hmin. left. exact He.
        -- subst e. specialize (Hmin m (or_introl eq_refl)). lia.
        -- apply Hmin. right. exact He.
    + apply entry_leb_false in E.
      destruct (IH x) as [Hin Hmin]. split.
      * destruct Hin as [Hin|Hin]; [right; left; exact Hin | right; right; exact Hin].
      * intros e [He|[He|He]].
        -- subst e. specialize (Hmin x (or_introl eq_refl)). lia.
        -- apply Hmin. left. exact He.
        -- apply Hmin. right. exact He.
Qed.

Lemma remove_entry_incl c l : incl (remove_entry c l) l.
Proof.
  induction l as [|e l IH]; simpl; [apply incl_refl|].
  destruct (Nat.eqb (ent_c e) c).
  - intros x Hx. right. exact Hx.
  - apply incl_cons; [now left | intros x Hx; right; apply IH, Hx].
Qed.

Lemma pop_min_spec l m l' :
  pop_min l = Some (m, l') ->
  In m l /\ incl l' l /\ forall e, In e l -> ent_d m <= ent_d e.
Proof.
  destruct l as [|x l]; unfold pop_min; [discriminate|].
  intros H. injection H as <- <-. destruct (min_entry_spec l x) as [Hin Hmin].
  split; [exact Hin|]. split; [exact (remove_entry_incl (ent_c (min_entry x l)) (x :: l)) | exact Hmin].
Qed.

Lemma pop_fresh_spec n dist fr e fr' :
  pop_fresh n dist fr = Some (e, fr') ->
  In e fr /\ incl fr' fr /\ lookup dist (ent_v e) = None /\
  forall e', In e' fr' -> ent_d e <= ent_d e'.
Proof.
  revert fr. induction n as [|n IH]; intros fr; simpl; [discriminate|].
  destruct (pop_min fr) as [[m fr1]|] eqn:Ep; [|discriminate].
  destruct (pop_min_spec _ _ _ Ep) as (Hin & Hincl & Hmin).
  destruct (lookup dist (ent_v m)) eqn:El.
  - intros H. destruct (IH fr1 H) as (Hin' & Hincl' & Hl & Hm).
    split; [exact (Hincl _ Hin')|]. split; [intros x Hx; exact (Hincl _ (Hincl' _ Hx))|].
    split; assumption.
  - intros [= <- <-]. split; [exact Hin|]. split; [exact Hincl|]. split; [exact El|].
    intros e' He'. apply Hmin, Hincl, He'.
Qed.

Lemma neighbors_spec G v u d :
  In (u, d) (neighbors G v) ->
  exists e, In e (g_edges G) /\ (e_src e = v \/ e_dst e = v) /\
    u = (if coord_eqb (e_src e) v then e_dst e else e_src e) /\ e_data e = d.
Proof.
  unfold neighbors. rewrite in_flat_map. intros (e & He & Hin). exists e.
  split; [exact He|].
  destruct (coord_eqb (e_src e) v) eqn:E1.
  - destruct Hin as [[= <- <-]|[]]. apply coord_eqb_eq in E1. auto.
  - destruct (coord_eqb (e_dst e) v) eqn:E2; [|destruct Hin].
    destruct Hin as [[= <- <-]|[]]. apply coord_eqb_eq in E2. auto.
Qed.

Lemma reachable_has_node G s x :
  graph_wf G -> has_node G s = true -> reachable G s x -> has_node G x = true.
Proof.
  intros Hwf Hs H. induction H as [|v e _ _ He _].
  - exact Hs.
  - destruct (Hwf e He) as [H1 H2]. destruct (coord_eqb (e_src e) v); assumption.
Qed.

Section DijkstraNoPath.

Variable G : graph.
Variable s t : coord.
Hypothesis G_wf : graph_wf G.
Hypothesis G_weights : forall e, In e (g_edges G) -> 0 <= weight (e_data e).
Hypothesis t_unreachable : ~ reachable G s t.

Lemma relax_ok v dv st ue :
  In ue (neighbors G v) -> reachable G s v -> dinv G s st ->
  In v (map fst (ds_paths st)) ->
  (forall x dx, In (x, dx) (ds_dist st) -> dx <= dv) ->
  exists st', relax v dv st ue = Ok st' /\ dinv G s st' /\
    In v (map fst (ds_paths st')) /\ ds_dist st' = ds_dist st.
Proof.
  destruct ue as [u d]. intros Hn Hv Hi Hp Hle.
  destruct (neighbors_spec _ _ _ _ Hn) as (e & He & Hev & Hu & Hd).
  assert (Hru : reachable G s u) by (rewrite Hu; now apply reach_step).
  assert (Hnu : has_node G u = true).
  { destruct (G_wf e He) as [H1 H2]. rewrite Hu. destruct (coord_eqb (e_src e) v); assumption. }
  assert (Hw : 0 <= weight d) by (rewrite <- Hd; exact (G_weights e He)).
  unfold relax.
  destruct (lookup (ds_dist st) u) as [ud|] eqn:Eu.
  - apply lookup_some_in, Hle in Eu.
    destruct (Z.ltb_spec (dv + weight d) ud); [lia|]. eauto.
  - destruct (lookup (ds_paths st) v) as [pv|] eqn:Ev.
    2: { apply lookup_none_iff in Ev. contradiction. }
    assert (Hpush : exists st',
      (let* pv := of_option KeyError (Some pv) in
       Ok (mk_dstate (ds_dist st) (assoc_set (ds_seen st) u (dv + weight d))
             (assoc_set (ds_paths st) u (pv ++ [u]))
             ((dv + weight d, ds_count st, u) :: ds_fringe st) (S (ds_count st))))
        = Ok st' /\ dinv G s st' /\ In v (map fst (ds_paths st')) /\ ds_dist st' = ds_dist st).
    { eexists. split; [reflexivity|]. cbn [ds_paths ds_dist ds_fringe].
      split; [|split; [apply assoc_set_keys; now right | reflexivity]].
      destruct Hi as [H1 H2 H3 H4 H5]. constructor; cbn [ds_paths ds_dist ds_fringe];
        [exact H1 | exact H2 | exact H3 | |].
      - intros e' [<-|He']; unfold ent_v; cbn [snd].
        + split; [exact Hru|]. split; [exact Hnu|]. apply assoc_set_keys. now left.
        + destruct (H4 e' He') as (? & ? & ?). split; [assumption|]. split; [assumption|].
          apply assoc_set_keys. now right.
      - intros x dx e' Hx [<-|He'].
        + unfold ent_d. cbn [fst]. specialize (Hle x dx Hx). lia.
        + exact (H5 x dx e' Hx He'). }
    destruct (lookup (ds_seen st) u) as [su|]; [|exact Hpush].
    destruct (dv + weight d <? su); [exact Hpush|]. eauto.
Qed.

Lemma relax_fold_ok v dv l st :
  (forall ue, In ue l -> In ue (neighbors G v)) -> reachable G s v -> dinv G s st ->
  In v (map fst (ds_paths st)) ->
  (forall x dx, In (x, dx) (ds_dist st) -> dx <= dv) ->
  exists st', foldM (relax v dv) st l = Ok st' /\ dinv G s st' /\ ds_dist st' = ds_dist st.
Proof.
  revert st. induction l as [|ue l IH]; intros st Hl Hv Hi Hp Hle; simpl.
  - eauto.
  - destruct (relax_ok v dv st ue (Hl ue (or_introl eq_refl)) Hv Hi Hp Hle)
      as (st1 & E & Hi1 & Hp1 & Hd1).
    rewrite E. simpl.
    destruct (IH st1) as (st2 & E2 & Hi2 & Hd2);
      [intros x Hx; apply Hl; now right | exact Hv | exact Hi1 | exact Hp1 |
       rewrite Hd1; exact Hle |].
    exists st2. split; [exact E2|]. split; [exact Hi2|]. congruence.
Qed.

Lemma dinv_target_unseen st : dinv G s st -> lookup (ds_dist st) t = None.
Proof.
  intros Hi. apply lookup_none_iff. intros Ht.
  exact (t_unreachable (dinv_dist_reach _ _ _ Hi t Ht)).
Qed.

Lemma dijkstra_loop_no_path fuel st :
  dinv G s st -> (List.length (g_nodes G) < List.length (ds_dist st) + fuel)%nat ->
  exists st', dijkstra_loop fuel G t st = Some (Ok st') /\ lookup (ds_dist st') t = None.
Proof.
  revert st. induction fuel as [|fuel IH]; intros st Hi Hlen.
  - exfalso.
    assert (Hle : (List.length (map fst (ds_dist st)) <= List.length (map fst (g_nodes G)))%nat).
    { apply NoDup_incl_length; [exact (dinv_dist_nodup _ _ _ Hi)|].
      intros x Hx. apply has_node_in, (dinv_dist_node _ _ _ Hi x Hx). }
    rewrite !length_map in Hle. lia.
  - simpl.
    destruct (pop_fresh _ (ds_dist st) (ds_fringe st)) as [[e fr']|] eqn:Ep.
    2: { eexists. split; [reflexivity|]. exact (dinv_target_unseen _ Hi). }
    destruct (pop_fresh_spec _ _ _ _ _ Ep) as (Hin & Hincl & Hnew & Hmin).
    destruct Hi as [H1 H2 H3 H4 H5].
    destruct (H4 e Hin) as (Hre & Hne & Hpe).
    destruct (coord_eqb (ent_v e) t) eqn:Et.
    { apply coord_eqb_eq in Et. rewrite Et in Hre. contradiction. }
    set (st1 := mk_dstate ((ent_v e, ent_d e) :: ds_dist st) (ds_seen st)
                  (ds_paths st) fr' (ds_count st)).
    assert (Hi1 : dinv G s st1).
    { constructor; cbn [ds_dist ds_fringe ds_paths st1 map fst].
      - intros x [<-|Hx]; [exact Hre | exact (H1 x Hx)].
      - constructor; [apply lookup_none_iff; exact Hnew | exact H2].
      - intros x [<-|Hx]; [exact Hne | exact (H3 x Hx)].
      - intros e' He'. exact (H4 e' (Hincl e' He')).
      - intros x dx e' [[= <- <-]|Hx] He'.
        + exact (Hmin e' He').
        + exact (H5 x dx e' Hx (Hincl e' He')). }
    destruct (relax_fold_ok (ent_v e) (ent_d e) (neighbors G (ent_v e)) st1)
      as (st2 & E2 & Hi2 & Hd2); [tauto | exact Hre | exact Hi1 | exact Hpe | |].
    { intros x dx [[= <- <-]|Hx]; [lia | exact (H5 x dx e Hx Hin)]. }
    rewrite E2. apply IH; [exact Hi2|].
    rewrite Hd2. cbn [st1 ds_dist List.length]. lia.
Qed.

Lemma single_source_dijkstra_no_path :
  has_node G s = true -> single_source_dijkstra G s t = Err NetworkXNoPath.
Proof.
  intros Hs. unfold single_source_dijkstra. rewrite Hs. simpl negb. cbn iota.
  destruct (coord_eqb t s) eqn:Ets.
  { apply coord_eqb_eq in Ets. subst t. exfalso. apply t_unreachable, reach_refl. }
  destruct (dijkstra_loop_no_path (S (List.length (g_nodes G))) (dijkstra_init s))
    as (st & E & Hn).
  - constructor; cbn [ds_dist ds_fringe ds_paths dijkstra_init map fst].
    + intros x [].
    + constructor.
    + intros x [].
    + intros e [<-|[]]. unfold ent_v. cbn [snd].
      split; [apply reach_refl|]. split; [exact Hs | now left].
    + intros x dx e [].
  - cbn [dijkstra_init ds_dist List.length]. lia.
  - rewrite E, Hn. reflexivity.
Qed.

End DijkstraNoPath.

Lemma reachable_endpoint G s x :
  reachable G s x -> x = s \/ exists e, In e (g_edges G) /\ (e_src e = x \/ e_dst e = x).
Proof.
  intros H. destruct H as [|v e _ He _]; [now left|].
  right. exists e. split; [exact He|].
  destruct (coord_eqb (e_src e) v); auto.
Qed.

(** [read_edges] only adds edges between existing nodes. *)
Lemma read_edges_wf ti table ti' :
  read_edges ti table = Ok ti' -> graph_wf (ti_graph ti').
Proof.
  intros H. apply (read_edges_inv graph_wf ti table ti'); [| |exact H].
  - intros e [].
  - intros z G s [t f] G' _ _ Hwf Hadd e He.
    unfold add_star_edge, get_density, node_color in Hadd.
    destruct (node_lookup (g_nodes G) s) as [cs|] eqn:Es; simpl in Hadd; [|discriminate].
    destruct (dict_get table cs); simpl in Hadd; [|discriminate].
    destruct (node_lookup (g_nodes G) t) as [ct|] eqn:Et; simpl in Hadd; [|discriminate].
    destruct (dict_get table ct); simpl in Hadd; [|discriminate].
    injection Hadd as <-. unfold has_node. simpl in *.
    apply add_edge_list_in in He as [He | ->].
    + exact (Hwf e He).
    + simpl. rewrite Es, Et. auto.
Qed.

(** C7: on a graph whose edges join nodes and have non-negative weights,
    [shortest_path] fails with NodeNotFound exactly when the source is not a
    node; when the source is a node and the target is not, or is not
    connected to the source, it fails with NoPathFound (networkx
    [NetworkXNoPath]), not NodeNotFound. *)
Theorem C7_missing_node_or_no_path ti s t pl rest :
  graph_wf (ti_graph ti) ->
  (forall e, In e (g_edges (ti_graph ti)) -> 0 <= weight (e_data e)) ->
  (has_node (ti_graph ti) s = false -> read_path ti s t pl rest = Err NodeNotFound) /\
  (has_node (ti_graph ti) s = true -> has_node (ti_graph ti) t = false ->
     read_path ti s t pl rest = Err NetworkXNoPath) /\
  (has_node (ti_graph ti) s = true -> ~ reachable (ti_graph ti) s t ->
     read_path ti s t pl rest = Err NetworkXNoPath).
Proof.
  intros Hwf Hw.
  assert (Hnp : has_node (ti_graph ti) s = true -> ~ reachable (ti_graph ti) s t ->
                read_path ti s t pl rest = Err NetworkXNoPath).
  { intros Hs Hr. unfold read_path.
    rewrite (single_source_dijkstra_no_path (ti_graph ti) s t Hwf Hw Hr Hs). reflexivity. }
  split; [|split; [|exact Hnp]].
  - intros Hs. unfold read_path, single_source_dijkstra. rewrite Hs. reflexivity.
  - intros Hs Ht. apply Hnp; [exact Hs|]. intros Hr.
    rewrite (reachable_has_node _ _ _ Hwf Hs Hr) in Ht. discriminate.
Qed.

Lemma ti6_wf : graph_wf (ti_graph ti6).
Proof.
  apply (read_edges_wf ti6_nodes table6). vm_compute. reflexivity.
Qed.

Lemma C7_witness :
  read_path ti6 (9, 9) (1, 1) 1 0 = Err NodeNotFound /\
  read_path ti6 (1, 1) (9, 9) 1 0 = Err NetworkXNoPath /\
  read_path ti6 (1, 1) (0, 0) 1 0 = Err NetworkXNoPath.
Proof.
  assert (Hw : forall e, In e (g_edges (ti_graph ti6)) -> 0 <= weight (e_data e))
    by (intros e He; exact (proj2 (ti6_edges_nonneg e He))).
  split; [|split].
  - apply (proj1 (C7_missing_node_or_no_path ti6 (9, 9) (1, 1) 1 0 ti6_wf Hw)).
    vm_compute. reflexivity.
  - apply (proj1 (proj2 (C7_missing_node_or_no_path ti6 (1, 1) (9, 9) 1 0 ti6_wf Hw)));
      vm_compute; reflexivity.
  - apply (proj2 (proj2 (C7_missing_node_or_no_path ti6 (1, 1) (0, 0) 1 0 ti6_wf Hw)));
      [vm_compute; reflexivity|].
    intros Hr. apply reachable_endpoint in Hr as [Hr|(e & He & Hx)]; [discriminate Hr|].
    assert (Hall : forallb (fun e => negb (coord_eqb (e_src e) (0, 0)) &&
                                     negb (coord_eqb (e_dst e) (0, 0)))
                     (g_edges (ti_graph ti6)) = true) by (vm_compute; reflexivity).
    rewrite forallb_forall in Hall. specialize (Hall e He).
    destruct Hx as [Hx|Hx]; rewrite Hx in Hall;
      rewrite (proj2 (coord_eqb_eq (0, 0) (0, 0)) eq_refl) in Hall;
      [discriminate Hall | rewrite andb_false_r in Hall; discriminate Hall].
Defined.

(** * Further properties of [TopImage] and its callers *)

(** ** [read_nodes] *)

Lemma node_lookup_add ns v c x :
  node_lookup (add_node_list ns v c) x =
  if coord_eqb v x then Some c else node_lookup ns x.
Proof.
  induction ns as [|[k c'] ns IH]; simpl; [now destruct (coord_eqb v x)|].
  destruct (coord_eqb k v) eqn:Ekv; simpl.
  - apply coord_eqb_eq in Ekv as ->. destruct (coord_eqb v x); reflexivity.
  - rewrite IH. destruct (coord_eqb k x) eqn:Ekx, (coord_eqb v x) eqn:Evx; try reflexivity.
    apply coord_eqb_eq in Ekx, Evx. subst. rewrite (proj2 (coord_eqb_eq x x) eq_refl) in Ekv.
    discriminate.
Qed.

Lemma read_node_column img i js dd G dd' G' :
  foldM (read_node img i) (dd, G) js = Ok (dd', G') ->
  g_edges G' = g_edges G /\
  forall x, node_lookup (g_nodes G') x =
    if (fst x =? i) && existsb (Z.eqb (snd x)) js
    then Some (pixel_color img (fst x) (snd x)) else node_lookup (g_nodes G) x.
Proof.
  revert dd G. induction js as [|j js IH]; intros dd G; simpl.
  - intros H. injection H as <- <-. split; [reflexivity|].
    intros x. now rewrite andb_false_r.
  - intros H. destruct (IH _ _ H) as [He Hl]. split; [exact He|].
    intros x. rewrite Hl. cbn [add_node g_nodes]. rewrite node_lookup_add.
    destruct x as [x1 x2]. cbn [fst snd].
    destruct (x1 =? i) eqn:E1, (x2 =? j) eqn:E2, (existsb (Z.eqb x2) js); simpl;
      try reflexivity;
      unfold coord_eqb; cbn [fst snd];
      rewrite (Z.eqb_sym i x1), (Z.eqb_sym j x2), ?E1, ?E2; simpl; try reflexivity.
    apply Z.eqb_eq in E1, E2. now subst.
Qed.

Lemma read_nodes_grid_fold img step is dd G dd' G' :
  step <> 0 ->
  foldM (fun st i =>
           let* js := py_range 0 (height img - 1) step in
           foldM (read_node img i) st js) (dd, G) is = Ok (dd', G') ->
  g_edges G' = g_edges G /\
  forall x, node_lookup (g_nodes G') x =
    if existsb (Z.eqb (fst x)) is &&
       existsb (Z.eqb (snd x))
         (map (fun k => 0 + Z.of_nat k * step)
              (seq 0 (Z.to_nat (range_len 0 (height img - 1) step))))
    then Some (pixel_color img (fst x) (snd x)) else node_lookup (g_nodes G) x.
Proof.
  intros Hs. rewrite (py_range_ok _ _ _ Hs). cbn [bind].
  set (js := map _ _). revert dd G.
  induction is as [|i is IH]; intros dd G; simpl.
  - intros H. injection H as <- <-. split; [reflexivity|]. reflexivity.
  - destruct (foldM (read_node img i) (dd, G) js) as [[dd1 G1]|] eqn:E; simpl; [|discriminate].
    intros H. destruct (IH _ _ H) as [He Hl].
    destruct (read_node_column _ _ _ _ _ _ _ E) as [He1 Hl1].
    split; [congruence|]. intros x. rewrite Hl, Hl1.
    rewrite (Z.eqb_sym (fst x) i).
    destruct (i =? fst x); destruct (existsb _ is); destruct (existsb _ js); reflexivity.
Qed.

Lemma existsb_range_pos x stop step :
  0 < step ->
  existsb (Z.eqb x) (map (fun k => 0 + Z.of_nat k * step)
                        (seq 0 (Z.to_nat (range_len 0 stop step)))) = true <->
  0 <= x < stop /\ x mod step = 0.
Proof.
  intros Hs. rewrite existsb_exists.
  transitivity (In x (map (fun k => 0 + Z.of_nat k * step)
                        (seq 0 (Z.to_nat (range_len 0 stop step))))).
  - split.
    + intros (y & Hy & E). apply Z.eqb_eq in E. now subst.
    + intros H. exists x. split; [exact H | apply Z.eqb_refl].
  - rewrite py_range_in_pos by exact Hs. rewrite Z.sub_0_r. reflexivity.
Qed.

(** The nodes created by [read_nodes] with a positive step: exactly the
    grid points [(i, j)] with [0 <= i < width - 1], [0 <= j < height - 1],
    both multiples of the step, each with its pixel colour. *)
Lemma read_nodes_lookup ti step ti' :
  0 < step -> read_nodes ti step = Ok ti' ->
  g_edges (ti_graph ti') = [] /\ ti_image ti' = ti_image ti /\
  ti_step ti' = Some step /\
  forall i j c,
    node_lookup (g_nodes (ti_graph ti')) (i, j) = Some c <->
    (0 <= i < width (ti_image ti) - 1 /\ i mod step = 0 /\
     0 <= j < height (ti_image ti) - 1 /\ j mod step = 0 /\
     c = pixel_color (ti_image ti) i j).
Proof.
  intros Hs H. assert (Hne : step <> 0) by lia.
  unfold read_nodes in H. rewrite (py_range_ok 0 _ _ Hne) in H at 1. cbn [bind] in H.
  destruct (foldM _ (ti_density ti, empty_graph) _) as [[dd' G']|] eqn:E;
    cbn [bind] in H; [|discriminate].
  injection H as <-. cbn [ti_graph ti_image ti_step fst snd].
  destruct (read_nodes_grid_fold _ _ _ _ _ _ _ Hne E) as [He Hl].
  split; [exact He|]. split; [reflexivity|]. split; [reflexivity|].
  intros i j c. rewrite Hl. cbn [fst snd].
  destruct (existsb (Z.eqb i) _) eqn:Ei, (existsb (Z.eqb j) _) eqn:Ej; simpl.
  - apply existsb_range_pos in Ei as [Hi Hmi]; [|exact Hs].
    apply existsb_range_pos in Ej as [Hj Hmj]; [|exact Hs].
    split; [intros [= <-]; tauto | intros (_ & _ & _ & _ & ->); reflexivity].
  - split; [discriminate|]. intros (_ & _ & Hj & Hmj & _).
    rewrite (proj2 (existsb_range_pos j _ _ Hs) (conj Hj Hmj)) in Ej. discriminate.
  - split; [discriminate|]. intros (Hi & Hmi & _).
    rewrite (proj2 (existsb_range_pos i _ _ Hs) (conj Hi Hmi)) in Ei. discriminate.
  - split; [discriminate|]. intros (Hi & Hmi & _).
    rewrite (proj2 (existsb_range_pos i _ _ Hs) (conj Hi Hmi)) in Ei. discriminate.
Qed.

(** [read_nodes(step_size)] with [step_size > 0] discards the previous graph
    and creates exactly one node per grid point [(i, j)] with
    [0 <= i < width - 1] and [0 <= j < height - 1], both multiples of the
    step, carrying that pixel's colour, and no edge. *)
Theorem read_nodes_grid ti step ti' :
  0 < step -> read_nodes ti step = Ok ti' ->
  g_edges (ti_graph ti') = [] /\ ti_image ti' = ti_image ti /\
  ti_step ti' = Some step /\
  forall i j c,
    node_lookup (g_nodes (ti_graph ti')) (i, j) = Some c <->
    (0 <= i < width (ti_image ti) - 1 /\ i mod step = 0 /\
     0 <= j < height (ti_image ti) - 1 /\ j mod step = 0 /\
     c = pixel_color (ti_image ti) i j).
Proof. intros Hs H. exact (read_nodes_lookup ti step ti' Hs H). Qed.

Lemma read_nodes_grid_witness :
  node_lookup (g_nodes (ti_graph ti6_nodes)) (4, 4) = Some forest /\
  node_lookup (g_nodes (ti_graph ti6_nodes)) (5, 0) = None.
Proof.
  assert (H : read_nodes (new_top_image img6) 1 = Ok ti6_nodes) by (vm_compute; reflexivity).
  destruct (read_nodes_grid (new_top_image img6) 1 ti6_nodes ltac:(lia) H)
    as (_ & _ & _ & Hl).
  split.
  - apply Hl. cbn. repeat split; lia.
  - destruct (node_lookup _ (5, 0)) as [c|] eqn:E; [|reflexivity].
    apply Hl in E. cbn in E. lia.
Defined.

Lemma color_eqb_eq a b : color_eqb a b = true <-> a = b.
Proof.
  destruct a as [[[a1 a2] a3] a4], b as [[[b1 b2] b3] b4]. unfold color_eqb.
  rewrite !andb_true_iff, !Z.eqb_eq. split.
  - intros [[[-> ->] ->] ->]. reflexivity.
  - intros H. injection H as -> -> -> ->. auto.
Qed.

Lemma dict_get_app d1 d2 c :
  dict_get (d1 ++ d2) c =
  match dict_get d1 c with Some v => Some v | None => dict_get d2 c end.
Proof.
  induction d1 as [|[k v] d1 IH]; simpl; [reflexivity|].
  destruct (color_eqb k c); [reflexivity | exact IH].
Qed.

Lemma dict_get_none_iff d c : dict_get d c = None <-> ~ In c (map fst d).
Proof.
  induction d as [|[k v] d IH]; simpl; [tauto|].
  destruct (color_eqb k c) eqn:E.
  - apply color_eqb_eq in E as ->. split; [discriminate | tauto].
  - rewrite IH. split; [|tauto]. intros H [<-|Hk]; [|tauto].
    rewrite (proj2 (color_eqb_eq k k) eq_refl) in E. discriminate.
Qed.

Lemma read_node_registered dd0 img i st j st' :
  registered dd0 st -> read_node img i st j = Ok st' -> registered dd0 st'.
Proof.
  destruct st as [dd G]. intros (added & Hdd & Hnd & Hnew & Hn). cbn [fst snd] in *.
  unfold read_node. set (c := pixel_color img i j).
  destruct (dict_get dd c) as [d|] eqn:Ec; intros H; injection H as <-.
  - exists added. cbn [fst snd]. split; [exact Hdd|]. split; [exact Hnd|].
    split; [exact Hnew|]. intros v c'. unfold add_node. cbn [g_nodes].
    rewrite node_lookup_add. destruct (coord_eqb (i, j) v).
    + intros [= <-]. congruence.
    + apply Hn.
  - exists (added ++ [(c, (""%string, 0))]). cbn [fst snd].
    split; [rewrite Hdd, app_assoc; reflexivity|].
    assert (Hc : ~ In c (map fst dd)) by (apply dict_get_none_iff; exact Ec).
    split.
    + rewrite map_app. cbn [map fst]. apply NoDup_app; [exact Hnd | constructor; [intros []|constructor] |].
      intros x Hx [<-|[]]. apply Hc. rewrite Hdd, map_app. apply in_or_app. now right.
    + split.
      * intros c' d' Hin. apply in_app_or in Hin as [Hin|[[= <- <-]|[]]]; [exact (Hnew _ _ Hin)|].
        split; [reflexivity|]. rewrite Hdd, dict_get_app in Ec.
        destruct (dict_get dd0 c); [discriminate | reflexivity].
      * intros v c'. unfold add_node. cbn [g_nodes]. rewrite node_lookup_add, dict_get_app.
        destruct (coord_eqb (i, j) v).
        -- intros [= <-]. rewrite Ec. cbn.
           rewrite (proj2 (color_eqb_eq c c) eq_refl). discriminate.
        -- intros Hv. specialize (Hn v c' Hv). destruct (dict_get dd c'); [discriminate | tauto].
Qed.

Lemma read_node_sampled dd0 img i st j st' :
  colours_sampled img dd0 st -> read_node img i st j = Ok st' ->
  colours_sampled img dd0 st'.
Proof.
  destruct st as [dd G]. intros [Hpix Hkeys]. cbn [fst snd] in *.
  unfold read_node. set (c := pixel_color img i j).
  assert (Hpix' : forall v c', node_lookup (g_nodes (add_node G (i, j) c)) v = Some c' ->
                    c' = pixel_color img (fst v) (snd v)).
  { intros v c'. unfold add_node. cbn [g_nodes]. rewrite node_lookup_add.
    destruct (coord_eqb (i, j) v) eqn:E.
    - apply coord_eqb_eq in E as <-. intros [= <-]. reflexivity.
    - apply Hpix. }
  assert (Hold : forall c', (exists v, node_lookup (g_nodes G) v = Some c') ->
                   exists v, node_lookup (g_nodes (add_node G (i, j) c)) v = Some c').
  { intros c' [v Hv]. exists v. unfold add_node. cbn [g_nodes]. rewrite node_lookup_add.
    destruct (coord_eqb (i, j) v) eqn:E; [|exact Hv].
    apply coord_eqb_eq in E as <-. rewrite (Hpix _ _ Hv). reflexivity. }
  assert (Hnew : exists v, node_lookup (g_nodes (add_node G (i, j) c)) v = Some c).
  { exists (i, j). unfold add_node. cbn [g_nodes]. rewrite node_lookup_add.
    rewrite (proj2 (coord_eqb_eq (i, j) (i, j)) eq_refl). reflexivity. }
  destruct (dict_get dd c); intros H; injection H as <-; cbn [fst snd];
    (split; [exact Hpix'|]).
  - intros c' Hc' H0. exact (Hold c' (Hkeys c' Hc' H0)).
  - intros c' Hc' H0. cbn [fst] in Hc' |- *. rewrite map_app in Hc'. apply in_app_or in Hc' as [Hc'|[<-|[]]].
    + exact (Hold c' (Hkeys c' Hc' H0)).
    + exact Hnew.
Qed.

(** [read_nodes] keeps every entry of the density dict and appends, with
    [('', 0)], exactly the sampled colours it did not have, each once;
    afterwards every node's colour has an entry, so [colors] lists the old
    colours followed by the new ones. *)
Theorem read_nodes_registers_colours ti step ti' :
  read_nodes ti step = Ok ti' ->
  exists added, ti_density ti' = ti_density ti ++ added /\
    colors ti' = colors ti ++ map fst added /\ NoDup (map fst added) /\
    (forall c d, In (c, d) added -> d = (""%string, 0)) /\
    (forall c, In c (map fst added) <->
       dict_get (ti_density ti) c = None /\
       exists v, node_lookup (g_nodes (ti_graph ti')) v = Some c) /\
    (forall v c, node_lookup (g_nodes (ti_graph ti')) v = Some c ->
       dict_get (ti_density ti') c <> None).
Proof.
  unfold read_nodes. destruct (py_range 0 _ step) as [is|]; cbn [bind]; [|discriminate].
  destruct (foldM _ (ti_density ti, empty_graph) is) as [st|] eqn:E; cbn [bind]; [|discriminate].
  intros H. injection H as <-. cbn [ti_density ti_graph].
  set (P := fun st => registered (ti_density ti) st /\
                      colours_sampled (ti_image ti) (ti_density ti) st).
  assert (Hr : P st).
  { refine (foldM_inv _ P is _ st _ _ E).
    - split.
      + exists []. cbn. split; [now rewrite app_nil_r|]. split; [constructor|].
        split; [intros c d []|]. intros v c H. discriminate.
      + split; [intros v c H; discriminate|].
        intros c Hc H0. cbn [fst] in Hc. apply dict_get_none_iff in H0. contradiction.
    - intros i s1 s2 _ Hs1 Hi.
      destruct (py_range 0 _ step) as [js|]; cbn [bind] in Hi; [|discriminate].
      refine (foldM_inv _ P js s1 s2 Hs1 _ Hi).
      intros j s3 s4 _ [Hs3 Hs3'] Hj.
      exact (conj (read_node_registered _ _ _ _ _ _ Hs3 Hj)
                  (read_node_sampled _ _ _ _ _ _ Hs3' Hj)). }
  destruct Hr as [(added & Hdd & Hnd & Hnew & Hn) [_ Hkeys]]. exists added.
  split; [exact Hdd|]. split; [unfold colors; cbn [ti_density]; rewrite Hdd, map_app; reflexivity|].
  split; [exact Hnd|]. split; [intros c d Hin; exact (proj1 (Hnew c d Hin))|].
  split; [|exact Hn].
  intros c. split.
  - intros Hc. apply in_map_iff in Hc as ([c' d] & <- & Hin). cbn [fst].
    destruct (Hnew c' d Hin) as [_ H0]. split; [exact H0|].
    apply (Hkeys c'); [|exact H0]. rewrite Hdd, map_app. apply in_or_app. right.
    exact (in_map fst _ _ Hin).
  - intros [H0 [v Hv]]. specialize (Hn v c Hv). rewrite Hdd, dict_get_app, H0 in Hn.
    destruct (dict_get added c) eqn:Ea; [|tauto].
    (* the key found by [dict_get] is [c] itself *)
    clear -Ea. induction added as [|[k' v'] added IH]; cbn in Ea |- *; [discriminate|].
    destruct (color_eqb k' c) eqn:E.
    + left. apply color_eqb_eq in E. exact E.
    + right. exact (IH Ea).
Qed.

Lemma read_nodes_registers_colours_witness :
  exists added, ti_density ti6u_nodes = [] ++ added /\
    colors ti6u_nodes = [] ++ map fst added /\ NoDup (map fst added) /\
    (forall c d, In (c, d) added -> d = (""%string, 0)) /\
    (forall c, In c (map fst added) <->
       dict_get [] c = None /\
       exists v, node_lookup (g_nodes (ti_graph ti6u_nodes)) v = Some c) /\
    (forall v c, node_lookup (g_nodes (ti_graph ti6u_nodes)) v = Some c ->
       dict_get (ti_density ti6u_nodes) c <> None).
Proof.
  apply (read_nodes_registers_colours (new_top_image img6u) 1 ti6u_nodes).
  vm_compute. reflexivity.
Defined.

(** ** [Main.map_menu] *)

Lemma snap_spec step c :
  0 < step ->
  snap step c <= c < snap step c + step /\ snap step c mod step = 0 /\
  (0 <= c -> 0 <= snap step c).
Proof.
  intros Hs. unfold snap.
  pose proof (Z.mod_pos_bound c step Hs) as Hb.
  pose proof (Z.div_mod c step ltac:(lia)) as Hd.
  split; [lia|]. split.
  - replace (c - c mod step) with ((c / step) * step) by lia. apply Z.mod_mul. lia.
  - intros Hc. assert (0 <= c / step) by (apply Z.div_pos; lia). nia.
Qed.

(** The position the context menu of [Main.map_menu] offers for a click
    inside the sampled area ([0 <= x < width - 1], [0 <= y < height - 1])
    after [read_nodes] with a positive step is a node of the graph: the grid
    point at or just below-left of the click, less than one step away on
    each axis. *)
Theorem map_menu_position_is_node ti step ti' x y :
  0 < step -> read_nodes ti step = Ok ti' ->
  0 <= x < width (ti_image ti) - 1 -> 0 <= y < height (ti_image ti) - 1 ->
  exists v, map_menu_position (ti_step ti') (x, y) = Some v /\
    has_node (ti_graph ti') v = true /\
    fst v <= x < fst v + step /\ snd v <= y < snd v + step.
Proof.
  intros Hs H Hx Hy.
  destruct (read_nodes_lookup ti step ti' Hs H) as (_ & _ & Hst & Hl).
  exists (snap step x, snap step y). rewrite Hst. unfold map_menu_position.
  rewrite (proj2 (Z.eqb_neq step 0)) by lia. cbn [fst snd].
  destruct (snap_spec step x Hs) as (Hx1 & Hmx & Hx0).
  destruct (snap_spec step y Hs) as (Hy1 & Hmy & Hy0).
  split; [reflexivity|]. split; [|split; lia].
  unfold has_node.
  rewrite (proj2 (Hl (snap step x) (snap step y)
                    (pixel_color (ti_image ti) (snap step x) (snap step y)))).
  - reflexivity.
  - repeat split; try lia; assumption.
Qed.

Lemma map_menu_position_is_node_witness :
  exists v, map_menu_position (ti_step ti6_nodes) (3, 2) = Some v /\
    has_node (ti_graph ti6_nodes) v = true /\
    fst v <= 3 < fst v + 1 /\ snd v <= 2 < snd v + 1.
Proof.
  apply (map_menu_position_is_node (new_top_image img6) 1 ti6_nodes 3 2);
    [lia | vm_compute; reflexivity | cbn; lia | cbn; lia].
Defined.

(** ** [read_edges] *)

(** [read_edges] reads only the nodes, the image and the step of its
    object, not its density dict nor its edges. *)
Lemma read_edges_ext ti1 ti2 table :
  g_nodes (ti_graph ti1) = g_nodes (ti_graph ti2) ->
  ti_image ti1 = ti_image ti2 -> ti_step ti1 = ti_step ti2 ->
  read_edges ti1 table = read_edges ti2 table.
Proof. intros Hn Hi Hs. unfold read_edges. rewrite Hn, Hi, Hs. reflexivity. Qed.

(** Calling [read_edges] again, with any table, gives what the second call
    alone would have given on the original object: the first call's edges
    and its density dict are discarded ([clear_edges], [copy]). *)
Theorem read_edges_again ti table ti1 table' :
  read_edges ti table = Ok ti1 -> read_edges ti1 table' = read_edges ti table'.
Proof.
  intros H.
  destruct (read_edges_inv (fun G => g_nodes G = g_nodes (ti_graph ti)) ti table ti1)
    as (Hn & _ & Hi & Hs); [reflexivity | | exact H |].
  - intros z G s tf G' _ _ HG Hadd. rewrite (add_star_edge_nodes _ _ _ _ _ Hadd). exact HG.
  - apply read_edges_ext; assumption.
Qed.

Lemma read_edges_again_witness :
  read_edges ti6 table3 = read_edges ti6_nodes table3.
Proof.
  apply (read_edges_again ti6_nodes table6 ti6 table3). vm_compute. reflexivity.
Defined.

(** The invariant rule of [read_edges] with the position of each source in
    the sweep. *)
Lemma read_edges_inv_sweep (P : graph -> Prop) ti table ti' step :
  ti_step ti = Some step -> 0 < step ->
  P (mk_graph (g_nodes (ti_graph ti)) []) ->
  (forall i j tf G G',
     step <= i < width (ti_image ti) - step - 1 -> (i - step) mod step = 0 ->
     step <= j < height (ti_image ti) - step - 1 -> (j - step) mod step = 0 ->
     In tf (star_targets step (i, j)) ->
     P G -> add_star_edge table (i, j) G tf = Ok G' -> P G') ->
  read_edges ti table = Ok ti' -> P (ti_graph ti').
Proof.
  intros Hst Hpos H0 Hstep. unfold read_edges. rewrite Hst. cbn [of_option bind].
  rewrite !(py_range_ok _ _ _ (ltac:(lia) : step <> 0)). cbn [bind].
  destruct (foldM _ _ _) as [G|] eqn:E; cbn [bind]; [|discriminate].
  intros H. injection H as <-. cbn [ti_graph]. revert E. apply foldM_inv; [exact H0|].
  intros i G1 G2 Hi HG1. apply foldM_inv; [exact HG1|].
  intros j G3 G4 Hj HG3. apply foldM_inv; [exact HG3|].
  intros tf G5 G6 Htf HG5 Hadd.
  apply py_range_in_pos in Hi as [Hi Hmi]; [|exact Hpos].
  apply py_range_in_pos in Hj as [Hj Hmj]; [|exact Hpos].
  exact (Hstep i j tf G5 G6 Hi Hmi Hj Hmj Htf HG5 Hadd).
Qed.

(** With a positive step, [read_edges] keeps the nodes, and every edge it
    leaves joins a swept source [(i, j)] (on the step grid, with
    [step <= i < width - step - 1] and [step <= j < height - step - 1]) to
    one of its four forward neighbours of [get_star], with that neighbour's
    factor (1 on the axes, 1.5 on the diagonals); both endpoints have a
    colour present in the supplied table. *)
Theorem read_edges_edges_from_sweep ti table ti' step :
  ti_step ti = Some step -> 0 < step -> read_edges ti table = Ok ti' ->
  g_nodes (ti_graph ti') = g_nodes (ti_graph ti) /\
  forall e, In e (g_edges (ti_graph ti')) ->
    exists i j,
      step <= i < width (ti_image ti) - step - 1 /\ (i - step) mod step = 0 /\
      step <= j < height (ti_image ti) - step - 1 /\ (j - step) mod step = 0 /\
      e_src e = (i, j) /\ In (e_dst e, factor (e_data e)) (star_targets step (i, j)) /\
      colour_known table (ti_graph ti) (e_src e) /\
      colour_known table (ti_graph ti) (e_dst e).
Proof.
  intros Hst Hpos H.
  set (N := g_nodes (ti_graph ti)).
  assert (HN : g_nodes (mk_graph N []) = g_nodes (ti_graph ti)) by reflexivity.
  apply (read_edges_inv_sweep
           (fun G => g_nodes G = N /\
              forall e, In e (g_edges G) ->
                exists i j,
                  step <= i < width (ti_image ti) - step - 1 /\ (i - step) mod step = 0 /\
                  step <= j < height (ti_image ti) - step - 1 /\ (j - step) mod step = 0 /\
                  e_src e = (i, j) /\
                  In (e_dst e, factor (e_data e)) (star_targets step (i, j)) /\
                  colour_known table (ti_graph ti) (e_src e) /\
                  colour_known table (ti_graph ti) (e_dst e))
           ti table ti' step Hst Hpos); [| |exact H].
  - split; [reflexivity | intros e []].
  - intros i j [t f] G G' Hi Hmi Hj Hmj Htf [HG Hes] Hadd.
    pose proof (add_star_edge_nodes _ _ _ _ _ Hadd) as HG'.
    assert (Hck : colour_known table G (i, j) /\ colour_known table G (fst (t, f)))
      by (apply add_star_edge_ok; eauto).
    assert (HGN : g_nodes G = g_nodes (ti_graph ti)) by exact HG.
    rewrite !(colour_known_nodes table G (ti_graph ti) _ HGN) in Hck.
    split; [rewrite HG'; exact HG|].
    unfold add_star_edge in Hadd.
    destruct (get_density table G (i, j) t) as [d|]; cbn [bind] in Hadd; [|discriminate].
    injection Hadd as <-. cbn [g_edges].
    intros e He. apply add_edge_list_in in He as [He | ->]; [exact (Hes e He)|].
    exists i, j. cbn [e_src e_dst e_data factor].
    exact (conj Hi (conj Hmi (conj Hj (conj Hmj (conj eq_refl (conj Htf Hck)))))).
Qed.

Lemma read_edges_edges_from_sweep_witness :
  g_nodes (ti_graph ti6) = g_nodes (ti_graph ti6_nodes) /\
  forall e, In e (g_edges (ti_graph ti6)) ->
    exists i j,
      1 <= i < width (ti_image ti6_nodes) - 1 - 1 /\ (i - 1) mod 1 = 0 /\
      1 <= j < height (ti_image ti6_nodes) - 1 - 1 /\ (j - 1) mod 1 = 0 /\
      e_src e = (i, j) /\ In (e_dst e, factor (e_data e)) (star_targets 1 (i, j)) /\
      colour_known table6 (ti_graph ti6_nodes) (e_src e) /\
      colour_known table6 (ti_graph ti6_nodes) (e_dst e).
Proof.
  apply (read_edges_edges_from_sweep ti6_nodes table6 ti6 1);
    [vm_compute; reflexivity | lia | vm_compute; reflexivity].
Defined.

(** ** The path returned by [single_source_dijkstra] *)

Lemma relax_cases v dv st u d st' :
  relax v dv st (u, d) = Ok st' ->
  (st' = st /\ (lookup (ds_dist st) u <> None \/ lookup (ds_seen st) u <> None)) \/
  (lookup (ds_dist st) u = None /\ exists pv, lookup (ds_paths st) v = Some pv /\
     st' = mk_dstate (ds_dist st) (assoc_set (ds_seen st) u (dv + weight d))
             (assoc_set (ds_paths st) u (pv ++ [u]))
             ((dv + weight d, ds_count st, u) :: ds_fringe st) (S (ds_count st))).
Proof.
  unfold relax.
  destruct (lookup (ds_dist st) u) as [ud|] eqn:Eu.
  - destruct (dv + weight d <? ud); [discriminate|]. intros [= <-]. left.
    split; [reflexivity | left; discriminate].
  - assert (Hpush : (let* pv := of_option KeyError (lookup (ds_paths st) v) in
       Ok (mk_dstate (ds_dist st) (assoc_set (ds_seen st) u (dv + weight d))
             (assoc_set (ds_paths st) u (pv ++ [u]))
             ((dv + weight d, ds_count st, u) :: ds_fringe st) (S (ds_count st))))
       = Ok st' ->
       (st' = st /\ (None <> @None Z \/ lookup (ds_seen st) u <> None)) \/
       (None = @None Z /\ exists pv, lookup (ds_paths st) v = Some pv /\
          st' = mk_dstate (ds_dist st) (assoc_set (ds_seen st) u (dv + weight d))
                  (assoc_set (ds_paths st) u (pv ++ [u]))
                  ((dv + weight d, ds_count st, u) :: ds_fringe st) (S (ds_count st)))).
    { destruct (lookup (ds_paths st) v) as [pv|]; cbn [of_option bind]; [|discriminate].
      intros [= <-]. right. split; [reflexivity|]. eauto. }
    destruct (lookup (ds_seen st) u) as [su|] eqn:Es; [|exact Hpush].
    destruct (dv + weight d <? su); [exact Hpush|].
    intros [= <-]. left. split; [reflexivity | right; discriminate].
Qed.

Lemma relax_dist v dv st ue st' :
  relax v dv st ue = Ok st' -> ds_dist st' = ds_dist st.
Proof.
  destruct ue as [u d]. intros H.
  destruct (relax_cases _ _ _ _ _ _ H) as [[-> _] | (_ & pv & _ & ->)]; reflexivity.
Qed.

Lemma assoc_set_in {A} (l : list (coord * A)) v a x b :
  In (x, b) (assoc_set l v a) -> (x = v /\ b = a) \/ In (x, b) l.
Proof.
  induction l as [|[k c] l IH]; simpl.
  - intros [[= -> ->]|[]]. now left.
  - destruct (coord_eqb k v) eqn:E; simpl.
    + apply coord_eqb_eq in E as ->. intros [[= -> ->]|H]; [now left | now right; right].
    + intros [[= -> ->]|H]; [now right; left|].
      destruct (IH H) as [H'|H']; [now left | now right; right].
Qed.

Lemma edge_lookup_same es u v e :
  In e es -> same_edge u v e = true -> edge_lookup es u v <> None.
Proof.
  induction es as [|e' es IH]; simpl; [tauto|].
  intros [<-|He] Hs.
  - rewrite Hs. discriminate.
  - destruct (same_edge u v e'); [discriminate | exact (IH He Hs)].
Qed.

Lemma neighbor_edge_lookup G v u d :
  In (u, d) (neighbors G v) -> edge_lookup (g_edges G) v u <> None.
Proof.
  intros H. destruct (neighbors_spec _ _ _ _ H) as (e & He & Hv & Hu & _).
  apply (edge_lookup_same _ _ _ e He). unfold same_edge.
  destruct (coord_eqb (e_src e) v) eqn:E.
  - rewrite Hu, (proj2 (coord_eqb_eq (e_dst e) (e_dst e)) eq_refl). reflexivity.
  - destruct Hv as [Hv|Hv]; [apply coord_eqb_eq in Hv; congruence|].
    rewrite Hu, Hv, (proj2 (coord_eqb_eq (e_src e) (e_src e)) eq_refl),
      (proj2 (coord_eqb_eq v v) eq_refl), orb_true_r. reflexivity.
Qed.

Lemma is_walk_snoc G p u d :
  p <> [] -> is_walk G p = true -> edge_lookup (g_edges G) (last p d) u <> None ->
  is_walk G (p ++ [u]) = true.
Proof.
  induction p as [|a p IH]; [tauto|]. intros _.
  destruct p as [|b p].
  - cbn [last app is_walk]. intros _ H. destruct (edge_lookup _ a u); [reflexivity | tauto].
  - cbn [is_walk app]. destruct (edge_lookup (g_edges G) a b); [|discriminate].
    intros Hw Hl. apply IH; [discriminate | exact Hw | exact Hl].
Qed.

Lemma relax_paths_ok G s v dv st u d st' :
  paths_ok G s st -> In v (map fst (ds_dist st)) -> In (u, d) (neighbors G v) ->
  relax v dv st (u, d) = Ok st' -> paths_ok G s st'.
Proof.
  intros Hp Hv Hn H.
  destruct (relax_cases _ _ _ _ _ _ H) as [[-> _] | (Hu & pv & Hpv & ->)]; [exact Hp|].
  intros x p Hx. cbn [ds_paths ds_dist] in *.
  apply assoc_set_in in Hx as [[-> ->]|Hx]; [|exact (Hp x p Hx)].
  destruct (Hp v pv (lookup_some_in _ _ _ Hpv)) as (Hh & Hl & Hw & Hnd & Hset).
  assert (Hne : pv <> []) by (intros ->; discriminate).
  assert (Hall : forall y, In y pv -> In y (map fst (ds_dist st))).
  { intros y Hy. destruct (coord_eqb_eq y v) as [_ Hyv].
    destruct (coord_eqb y v) eqn:E; [apply coord_eqb_eq in E; subst; exact Hv|].
    apply Hset; [exact Hy|]. intros ->. rewrite (proj2 (coord_eqb_eq v v) eq_refl) in E.
    discriminate. }
  assert (Hunew : ~ In u (map fst (ds_dist st))) by (apply lookup_none_iff; exact Hu).
  split; [destruct pv; [tauto | exact Hh]|].
  split; [apply last_last|].
  split; [apply (is_walk_snoc G pv u s Hne Hw); rewrite Hl; exact (neighbor_edge_lookup _ _ _ _ Hn)|].
  split.
  - apply NoDup_app; [exact Hnd | constructor; [intros []|constructor] |].
    intros y Hy [Hyu|[]]. rewrite <- Hyu in Hy. exact (Hunew (Hall u Hy)).
  - intros y Hy Hyu. apply in_app_or in Hy as [Hy|[<-|[]]]; [exact (Hall y Hy) | tauto].
Qed.

Lemma relax_fold_paths_ok G s v dv l :
  (forall ue, In ue l -> In ue (neighbors G v)) ->
  forall st st', paths_ok G s st -> In v (map fst (ds_dist st)) ->
  foldM (relax v dv) st l = Ok st' -> paths_ok G s st' /\ ds_dist st' = ds_dist st.
Proof.
  induction l as [|[u d] l IH]; intros Hl st st' Hp Hv; cbn [foldM].
  - intros [= <-]. auto.
  - destruct (relax v dv st (u, d)) as [st1|] eqn:E; cbn [bind]; [|discriminate].
    intros H.
    assert (Hd1 : ds_dist st1 = ds_dist st) by exact (relax_dist _ _ _ _ _ E).
    assert (Hp1 : paths_ok G s st1)
      by exact (relax_paths_ok _ _ _ _ _ _ _ _ Hp Hv (Hl _ (or_introl eq_refl)) E).
    destruct (IH (fun ue H => Hl ue (or_intror H)) st1 st' Hp1 ltac:(rewrite Hd1; exact Hv) H)
      as [Hp' Hd']. split; [exact Hp' | congruence].
Qed.

Lemma paths_ok_dist_mono G s st st' :
  paths_ok G s st -> ds_paths st' = ds_paths st ->
  incl (map fst (ds_dist st)) (map fst (ds_dist st')) -> paths_ok G s st'.
Proof.
  intros Hp Hpp Hi x p Hx. rewrite Hpp in Hx.
  destruct (Hp x p Hx) as (H1 & H2 & H3 & H4 & H5).
  repeat split; try assumption. intros y Hy Hyx. apply Hi, H5; assumption.
Qed.

Lemma dijkstra_loop_paths_ok G s t fuel :
  forall st st', paths_ok G s st -> dijkstra_loop fuel G t st = Some (Ok st') ->
  paths_ok G s st'.
Proof.
  induction fuel as [|fuel IH]; intros st st' Hp; simpl; [discriminate|].
  destruct (pop_fresh _ (ds_dist st) (ds_fringe st)) as [[e fr']|].
  2: { intros [= <-]. exact (paths_ok_dist_mono _ _ _ _ Hp eq_refl (incl_refl _)). }
  set (st1 := mk_dstate ((ent_v e, ent_d e) :: ds_dist st) (ds_seen st)
                (ds_paths st) fr' (ds_count st)).
  assert (Hp1 : paths_ok G s st1).
  { apply (paths_ok_dist_mono _ _ st); [exact Hp | reflexivity |].
    intros x Hx. right. exact Hx. }
  destruct (coord_eqb (ent_v e) t).
  - intros [= <-]. exact Hp1.
  - destruct (foldM (relax (ent_v e) (ent_d e)) st1 (neighbors G (ent_v e))) as [st2|] eqn:E;
      [|discriminate].
    intros H. apply (IH st2); [|exact H].
    apply (relax_fold_paths_ok G s (ent_v e) (ent_d e) (neighbors G (ent_v e))
             (fun ue H => H) st1 st2 Hp1); [now left | exact E].
Qed.

(** What [nx.single_source_dijkstra] returns is a simple walk from the
    source to the target. *)
Lemma single_source_dijkstra_path G s t p :
  single_source_dijkstra G s t = Ok p ->
  hd_error p = Some s /\ last p s = t /\ is_walk G p = true /\ NoDup p.
Proof.
  unfold single_source_dijkstra.
  destruct (negb (has_node G s)); [discriminate|].
  destruct (coord_eqb t s) eqn:Ets.
  { apply coord_eqb_eq in Ets as ->. intros [= <-]. cbn.
    repeat split; repeat constructor. intros []. }
  destruct (dijkstra_loop _ G t (dijkstra_init s)) as [[st|]|] eqn:E; try discriminate.
  destruct (lookup (ds_dist st) t); [|discriminate].
  destruct (lookup (ds_paths st) t) as [p'|] eqn:Ep; [|discriminate].
  intros [= <-].
  assert (Hp0 : paths_ok G s (dijkstra_init s)).
  { intros x p0 [[= <- <-]|[]]. cbn. repeat split; repeat constructor.
    - intros [].
    - intros y [<-|[]] Hy. tauto. }
  destruct (dijkstra_loop_paths_ok G s t _ _ _ Hp0 E t p' (lookup_some_in _ _ _ Ep))
    as (H1 & H2 & H3 & H4 & _). auto.
Qed.

(** The [nodes] list returned by [read_path] is a simple path of the graph:
    it starts at the source, ends at the target, has no repeated node, and
    consecutive nodes are joined by an edge. *)
Theorem read_path_nodes_simple_path ti s t pl rest r :
  read_path ti s t pl rest = Ok r ->
  hd_error (pr_nodes r) = Some s /\ last (pr_nodes r) s = t /\
  is_walk (ti_graph ti) (pr_nodes r) = true /\ NoDup (pr_nodes r).
Proof.
  unfold read_path.
  destruct (single_source_dijkstra (ti_graph ti) s t) as [nl|] eqn:E; cbn [bind]; [|discriminate].
  intros H. destruct (segment_inv _ _ _ _ _ _ _ H) as (f & tl & lbl & st & Hnl & Hf & ->).
  exact (single_source_dijkstra_path _ _ _ _ E).
Qed.

Lemma read_path_nodes_simple_path_witness :
  exists r, read_path ti6 (1, 1) (4, 3) 1 0 = Ok r /\
    (hd_error (pr_nodes r) = Some (1, 1) /\ last (pr_nodes r) (1, 1) = (4, 3) /\
     is_walk (ti_graph ti6) (pr_nodes r) = true /\ NoDup (pr_nodes r)).
Proof.
  eexists. split; [vm_compute; reflexivity|].
  apply (read_path_nodes_simple_path ti6 (1, 1) (4, 3) 1 0). vm_compute. reflexivity.
Defined.

(** ** [single_source_dijkstra] reaches every connected target *)

Lemma lookup_in_some {A} (l : list (coord * A)) v :
  lookup l v <> None -> In v (map fst l).
Proof.
  destruct (lookup l v) as [a|] eqn:E; [|tauto]. intros _.
  apply lookup_some_in in E. exact (in_map fst _ _ E).
Qed.

Lemma remove_entry_nodup c l :
  NoDup (map ent_c l) -> NoDup (map ent_c (remove_entry c l)).
Proof.
  induction l as [|e l IH]; simpl; [auto|].
  intros Hnd. apply NoDup_cons_iff in Hnd as [Hn Hnd].
  destruct (Nat.eqb (ent_c e) c); [exact Hnd|].
  simpl. constructor; [|exact (IH Hnd)].
  intros Hin. apply in_map_iff in Hin as (x & Hx & Hin).
  apply Hn. rewrite <- Hx. apply in_map, (remove_entry_incl c l), Hin.
Qed.

Lemma remove_entry_cover m l :
  NoDup (map ent_c l) -> In m l ->
  forall x, In x l -> x = m \/ In x (remove_entry (ent_c m) l).
Proof.
  induction l as [|e l IH]; simpl; [tauto|].
  intros Hnd Hm x Hx. apply NoDup_cons_iff in Hnd as [Hn Hnd].
  destruct (Nat.eqb (ent_c e) (ent_c m)) eqn:E.
  - apply Nat.eqb_eq in E. destruct Hx as [<-|Hx]; [|now right].
    left. destruct Hm as [Hm|Hm]; [now symmetry|].
    exfalso. apply Hn. rewrite E. apply in_map, Hm.
  - destruct Hx as [<-|Hx]; [right; now left|].
    destruct Hm as [<-|Hm]; [rewrite Nat.eqb_refl in E; discriminate|].
    destruct (IH Hnd Hm x Hx) as [H|H]; [now left | right; now right].
Qed.

Lemma remove_entry_length m l :
  In m l -> S (List.length (remove_entry (ent_c m) l)) = List.length l.
Proof.
  induction l as [|e l IH]; simpl; [tauto|]. intros Hm.
  destruct (Nat.eqb (ent_c e) (ent_c m)) eqn:E; [reflexivity|].
  destruct Hm as [<-|Hm]; [rewrite Nat.eqb_refl in E; discriminate|].
  simpl. rewrite (IH Hm). reflexivity.
Qed.

Lemma pop_min_cover l m l' :
  NoDup (map ent_c l) -> pop_min l = Some (m, l') ->
  NoDup (map ent_c l') /\ S (List.length l') = List.length l /\
  forall x, In x l -> x = m \/ In x l'.
Proof.
  intros Hnd H. destruct (pop_min_spec _ _ _ H) as (Hm & _ & _).
  destruct l as [|e l]; unfold pop_min in H; [discriminate|].
  injection H as Hm' Hl'. rewrite Hm' in Hl'. subst l'.
  split; [exact (remove_entry_nodup _ _ Hnd)|].
  split; [exact (remove_entry_length _ _ Hm)|].
  exact (remove_entry_cover _ _ Hnd Hm).
Qed.

Lemma pop_fresh_none n dist fr :
  NoDup (map ent_c fr) -> (List.length fr <= n)%nat -> pop_fresh n dist fr = None ->
  forall x, In x fr -> In (ent_v x) (map fst dist).
Proof.
  revert fr. induction n as [|n IH]; intros fr Hnd Hlen; simpl.
  - intros _ x Hx. destruct fr; [destruct Hx | simpl in Hlen; lia].
  - destruct (pop_min fr) as [[m fr1]|] eqn:Ep.
    + destruct (pop_min_cover _ _ _ Hnd Ep) as (Hnd1 & Hlen1 & Hcov).
      destruct (lookup dist (ent_v m)) as [dm|] eqn:El; [|discriminate].
      intros H x Hx. destruct (Hcov x Hx) as [->|Hx1].
      * apply lookup_in_some. rewrite El. discriminate.
      * apply (IH fr1 Hnd1 ltac:(lia) H x Hx1).
    + intros _ x Hx. destruct fr; [destruct Hx | discriminate].
Qed.

Lemma pop_fresh_cover n dist fr e fr' :
  NoDup (map ent_c fr) -> pop_fresh n dist fr = Some (e, fr') ->
  NoDup (map ent_c fr') /\
  forall x, In x fr -> x = e \/ In x fr' \/ In (ent_v x) (map fst dist).
Proof.
  revert fr. induction n as [|n IH]; intros fr Hnd; simpl; [discriminate|].
  destruct (pop_min fr) as [[m fr1]|] eqn:Ep; [|discriminate].
  destruct (pop_min_cover _ _ _ Hnd Ep) as (Hnd1 & _ & Hcov).
  destruct (lookup dist (ent_v m)) as [dm|] eqn:El.
  - intros H. destruct (IH fr1 Hnd1 H) as [Hnd' Hcov'].
    split; [exact Hnd'|]. intros x Hx. destruct (Hcov x Hx) as [->|Hx1].
    + right. right. apply lookup_in_some. rewrite El. discriminate.
    + exact (Hcov' x Hx1).
  - intros [= <- <-]. split; [exact Hnd1|].
    intros x Hx. destruct (Hcov x Hx) as [->|Hx1]; [now left | now right; left].
Qed.

Lemma edge_neighbor G v e :
  In e (g_edges G) -> e_src e = v \/ e_dst e = v ->
  In (if coord_eqb (e_src e) v then e_dst e else e_src e, e_data e) (neighbors G v).
Proof.
  intros He Hv. unfold neighbors. apply in_flat_map. exists e. split; [exact He|].
  destruct (coord_eqb (e_src e) v) eqn:E1; [now left|].
  destruct Hv as [Hv|Hv]; [apply coord_eqb_eq in Hv; congruence|].
  rewrite (proj2 (coord_eqb_eq _ _) Hv). now left.
Qed.

(** The bookkeeping of one [relax] step. *)
Lemma relax_cover v dv st u d st' :
  relax v dv st (u, d) = Ok st' ->
  (forall e, In e (ds_fringe st) -> (ent_c e < ds_count st)%nat) ->
  NoDup (map ent_c (ds_fringe st)) ->
  (forall x, In x (map fst (ds_seen st)) -> covered st x) ->
  (forall e, In e (ds_fringe st') -> (ent_c e < ds_count st')%nat) /\
  NoDup (map ent_c (ds_fringe st')) /\
  (forall x, In x (map fst (ds_seen st')) -> covered st' x) /\
  (forall x, covered st x -> covered st' x) /\ covered st' u /\
  ds_dist st' = ds_dist st.
Proof.
  intros H Hc Hnd Hs.
  destruct (relax_cases _ _ _ _ _ _ H) as [[-> Hu] | (Hu & pv & _ & ->)].
  - split; [exact Hc|]. split; [exact Hnd|]. split; [exact Hs|]. split; [tauto|].
    split; [|reflexivity].
    destruct Hu as [Hu|Hu]; [left; exact (lookup_in_some _ _ Hu) | exact (Hs u (lookup_in_some _ _ Hu))].
  - cbn [ds_fringe ds_count ds_seen ds_dist].
    assert (Hmono : forall x, covered st x ->
      covered (mk_dstate (ds_dist st) (assoc_set (ds_seen st) u (dv + weight d))
                 (assoc_set (ds_paths st) u (pv ++ [u]))
                 ((dv + weight d, ds_count st, u) :: ds_fringe st) (S (ds_count st))) x).
    { intros x [Hx|(e & He & Hex)]; [now left | right; exists e; split; [now right | exact Hex]]. }
    assert (Hnew : covered (mk_dstate (ds_dist st) (assoc_set (ds_seen st) u (dv + weight d))
                 (assoc_set (ds_paths st) u (pv ++ [u]))
                 ((dv + weight d, ds_count st, u) :: ds_fringe st) (S (ds_count st))) u).
    { right. eexists. split; [now left | reflexivity]. }
    split.
    + intros e [<-|He]; [unfold ent_c; cbn; lia | specialize (Hc e He); lia].
    + split.
      * cbn [map]. constructor; [|exact Hnd].
        intros Hin. apply in_map_iff in Hin as (e & He & Hin).
        specialize (Hc e Hin). unfold ent_c in He at 2. cbn in He. lia.
      * split; [|split; [exact Hmono | split; [exact Hnew | reflexivity]]].
        intros x Hx. apply assoc_set_keys in Hx as [->|Hx]; [exact Hnew | exact (Hmono x (Hs x Hx))].
Qed.

Lemma relax_fold_cover v dv l :
  forall st st', foldM (relax v dv) st l = Ok st' ->
  (forall e, In e (ds_fringe st) -> (ent_c e < ds_count st)%nat) ->
  NoDup (map ent_c (ds_fringe st)) ->
  (forall x, In x (map fst (ds_seen st)) -> covered st x) ->
  (forall e, In e (ds_fringe st') -> (ent_c e < ds_count st')%nat) /\
  NoDup (map ent_c (ds_fringe st')) /\
  (forall x, In x (map fst (ds_seen st')) -> covered st' x) /\
  (forall x, covered st x -> covered st' x) /\
  (forall ud, In ud l -> covered st' (fst ud)) /\
  ds_dist st' = ds_dist st.
Proof.
  induction l as [|[u d] l IH]; intros st st'; cbn [foldM].
  - intros [= <-] Hc Hnd Hs. repeat split; auto. intros ud [].
  - destruct (relax v dv st (u, d)) as [st1|] eqn:E; cbn [bind]; [|discriminate].
    intros H Hc Hnd Hs.
    destruct (relax_cover _ _ _ _ _ _ E Hc Hnd Hs) as (Hc1 & Hnd1 & Hs1 & Hm1 & Hu1 & Hd1).
    destruct (IH st1 st' H Hc1 Hnd1 Hs1) as (Hc' & Hnd' & Hs' & Hm' & Hl' & Hd').
    split; [exact Hc'|]. split; [exact Hnd'|]. split; [exact Hs'|].
    split; [intros x Hx; exact (Hm' x (Hm1 x Hx))|].
    split; [|congruence].
    intros ud [<-|Hud]; [exact (Hm' u Hu1) | exact (Hl' ud Hud)].
Qed.

Section DijkstraFinds.

Variable G : graph.
Variable s t : coord.
Hypothesis G_wf : graph_wf G.
Hypothesis G_weights : forall e, In e (g_edges G) -> 0 <= weight (e_data e).
Hypothesis t_reachable : reachable G s t.

Lemma settled_closure st :
  cinv G s t st ->
  (forall x, covered st x -> In x (map fst (ds_dist st))) ->
  forall x, reachable G s x -> In x (map fst (ds_dist st)).
Proof.
  intros Hc Hcl x Hr. induction Hr as [|v e Hr IH He Hv].
  - exact (Hcl s (cinv_source _ _ _ _ Hc)).
  - apply Hcl. exact (cinv_closed _ _ _ _ Hc v IH _ _ (edge_neighbor G v e He Hv)).
Qed.

Lemma dijkstra_loop_finds fuel st :
  dinv G s st -> cinv G s t st ->
  (List.length (g_nodes G) < List.length (ds_dist st) + fuel)%nat ->
  exists st', dijkstra_loop fuel G t st = Some (Ok st') /\
    lookup (ds_dist st') t <> None /\ lookup (ds_paths st') t <> None.
Proof.
  revert st. induction fuel as [|fuel IH]; intros st Hi Hc Hlen.
  - exfalso.
    assert (Hle : (List.length (map fst (ds_dist st)) <= List.length (map fst (g_nodes G)))%nat).
    { apply NoDup_incl_length; [exact (dinv_dist_nodup _ _ _ Hi)|].
      intros x Hx. apply has_node_in, (dinv_dist_node _ _ _ Hi x Hx). }
    rewrite !length_map in Hle. lia.
  - simpl.
    destruct (pop_fresh _ (ds_dist st) (ds_fringe st)) as [[e fr']|] eqn:Ep.
    2: { exfalso. apply (cinv_target _ _ _ _ Hc).
         apply (settled_closure st Hc); [|exact t_reachable].
         intros x [Hx|(f & Hf & <-)]; [exact Hx|].
         exact (pop_fresh_none _ _ _ (cinv_nodup _ _ _ _ Hc) (le_n _) Ep f Hf). }
    destruct (pop_fresh_spec _ _ _ _ _ Ep) as (Hin & Hincl & Hnew & Hmin).
    destruct (pop_fresh_cover _ _ _ _ _ (cinv_nodup _ _ _ _ Hc) Ep) as [Hnd1 Hcov1].
    pose proof Hi as [H1 H2 H3 H4 H5].
    destruct (H4 e Hin) as (Hre & Hne & Hpe).
    set (st1 := mk_dstate ((ent_v e, ent_d e) :: ds_dist st) (ds_seen st)
                  (ds_paths st) fr' (ds_count st)).
    destruct (coord_eqb (ent_v e) t) eqn:Et.
    { eexists. split; [reflexivity|]. cbn [st1 ds_dist ds_paths lookup].
      rewrite Et. split; [discriminate|].
      apply coord_eqb_eq in Et. rewrite <- Et. intros Hn. apply lookup_none_iff in Hn. exact (Hn Hpe). }
    assert (Hi1 : dinv G s st1).
    { constructor; cbn [ds_dist ds_fringe ds_paths st1 map fst].
      - intros x [<-|Hx]; [exact Hre | exact (H1 x Hx)].
      - constructor; [apply lookup_none_iff; exact Hnew | exact H2].
      - intros x [<-|Hx]; [exact Hne | exact (H3 x Hx)].
      - intros e' He'. exact (H4 e' (Hincl e' He')).
      - intros x dx e' [[= <- <-]|Hx] He'.
        + exact (Hmin e' He').
        + exact (H5 x dx e' Hx (Hincl e' He')). }
    assert (Hm1 : forall x, covered st x -> covered st1 x).
    { intros x [Hx|(f & Hf & <-)]; [left; cbn [st1 ds_dist map fst]; right; exact Hx|].
      destruct (Hcov1 f Hf) as [->|[Hf'|Hf']].
      - left. cbn [st1 ds_dist map fst]. now left.
      - right. exists f. split; [exact Hf' | reflexivity].
      - left. cbn [st1 ds_dist map fst]. right. exact Hf'. }
    destruct (relax_fold_ok G s G_wf G_weights (ent_v e) (ent_d e) (neighbors G (ent_v e)) st1)
      as (st2 & E2 & Hi2 & Hd2); [tauto | exact Hre | exact Hi1 | exact Hpe | |].
    { intros x dx [[= <- <-]|Hx]; [lia | exact (H5 x dx e Hx Hin)]. }
    destruct (relax_fold_cover _ _ _ st1 st2 E2) as (Hc2 & Hnd2 & Hs2 & Hm2 & Hl2 & _).
    { intros f Hf. exact (cinv_count _ _ _ _ Hc f (Hincl f Hf)). }
    { exact Hnd1. }
    { intros x Hx. exact (Hm1 x (cinv_seen _ _ _ _ Hc x Hx)). }
    rewrite E2. apply IH; [exact Hi2 | |].
    + constructor; [exact Hc2 | exact Hnd2 | exact Hs2 | | |].
      * rewrite Hd2. cbn [st1 ds_dist map fst]. intros w [<-|Hw] u d Hud.
        -- exact (Hl2 (u, d) Hud).
        -- exact (Hm2 u (Hm1 u (cinv_closed _ _ _ _ Hc w Hw u d Hud))).
      * exact (Hm2 s (Hm1 s (cinv_source _ _ _ _ Hc))).
      * rewrite Hd2. cbn [st1 ds_dist map fst]. intros [Ht|Ht].
        -- apply coord_eqb_eq in Ht. congruence.
        -- exact (cinv_target _ _ _ _ Hc Ht).
    + rewrite Hd2. cbn [st1 ds_dist List.length]. lia.
Qed.

Lemma single_source_dijkstra_finds :
  has_node G s = true -> exists p, single_source_dijkstra G s t = Ok p.
Proof.
  intros Hs. unfold single_source_dijkstra. rewrite Hs. simpl negb. cbn iota.
  destruct (coord_eqb t s); [eauto|].
  destruct (dijkstra_loop_finds (S (List.length (g_nodes G))) (dijkstra_init s))
    as (st & E & Hd & Hp).
  - constructor; cbn [ds_dist ds_fringe ds_paths dijkstra_init map fst].
    + intros x [].
    + constructor.
    + intros x [].
    + intros e [<-|[]]. unfold ent_v. cbn [snd].
      split; [apply reach_refl|]. split; [exact Hs | now left].
    + intros x dx e [].
  - constructor; cbn [ds_dist ds_fringe ds_seen ds_count dijkstra_init map fst].
    + intros e [<-|[]]. unfold ent_c. cbn. lia.
    + repeat constructor. intros [].
    + intros x [<-|[]]. right. eexists. split; [now left | reflexivity].
    + intros v [].
    + right. eexists. split; [now left | reflexivity].
    + intros [].
  - cbn [dijkstra_init ds_dist List.length]. lia.
  - rewrite E. destruct (lookup (ds_dist st) t); [|tauto].
    destruct (lookup (ds_paths st) t) as [p|]; [eauto | tauto].
Qed.

End DijkstraFinds.

(** ** [read_path] on a graph built by [read_edges] *)

Lemma edge_lookup_endpoint es u v d :
  edge_lookup es u v = Some d -> exists e, In e es /\ (e_src e = u \/ e_dst e = u).
Proof.
  induction es as [|e es IH]; simpl; [discriminate|].
  destruct (same_edge u v e) eqn:E.
  - intros _. exists e. split; [now left|]. unfold same_edge in E.
    apply orb_true_iff in E as [E|E]; apply andb_true_iff in E as [E1 E2];
      apply coord_eqb_eq in E1, E2; auto.
  - intros H. destruct (IH H) as (e' & He' & Hu). exists e'. split; [now right | exact Hu].
Qed.

(** The edges [read_edges] builds join nodes whose colours are in the table,
    and carry non-negative weights when the table's costs are. *)
Lemma read_edges_edges_ok ti table ti' :
  read_edges ti table = Ok ti' ->
  (forall c l k, In (c, (l, k)) table -> 0 <= k) ->
  forall e, In e (g_edges (ti_graph ti')) ->
  colour_known table (ti_graph ti') (e_src e) /\
  colour_known table (ti_graph ti') (e_dst e) /\ 0 <= weight (e_data e).
Proof.
  intros Hre Hcost.
  set (N := g_nodes (ti_graph ti)).
  set (Pe := fun (e : edge) =>
    colour_known table (mk_graph N []) (e_src e) /\
    colour_known table (mk_graph N []) (e_dst e) /\ 0 <= weight (e_data e)).
  destruct (read_edges_inv (fun G => g_nodes G = N /\ forall e, In e (g_edges G) -> Pe e)
              ti table ti') as ([HN Hall] & _); auto.
  - split; [reflexivity|]. intros e [].
  - intros z G s [t f] G' _ Htf [HN Hall] Hadd.
    unfold add_star_edge, get_density, node_color in Hadd.
    destruct (node_lookup (g_nodes G) s) as [cs|] eqn:Ecs; simpl in Hadd; [|discriminate].
    destruct (dict_get table cs) as [ds|] eqn:Eds; simpl in Hadd; [|discriminate].
    destruct (node_lookup (g_nodes G) t) as [ct|] eqn:Ect; simpl in Hadd; [|discriminate].
    destruct (dict_get table ct) as [dt|] eqn:Edt; simpl in Hadd; [|discriminate].
    injection Hadd as <-. simpl. split; [exact HN|].
    intros e He. apply add_edge_list_in in He as [He | ->]; [now apply Hall|].
    unfold Pe, colour_known. cbn [e_src e_dst e_data g_nodes]. rewrite <- HN.
    split; [eauto|]. split; [eauto|].
    apply py_int_nonneg.
    assert (Hk : 0 <= snd (if snd dt <? snd ds then dt else ds)).
    { destruct (snd dt <? snd ds).
      - destruct (dict_get_in _ _ _ Edt) as [k Hk].
        destruct dt as [l c]. exact (Hcost k l c Hk).
      - destruct (dict_get_in _ _ _ Eds) as [k Hk].
        destruct ds as [l c]. exact (Hcost k l c Hk). }
    simpl in Htf.
    destruct Htf as [H|[H|[H|[H|[]]]]]; injection H as _ <-; simpl.
    all: apply Z.mul_nonneg_nonneg; [exact Hk | lia].
  - intros e He. destruct (Hall e He) as (H1 & H2 & H3).
    rewrite !(colour_known_nodes table (ti_graph ti') (mk_graph N [])) by exact HN.
    auto.
Qed.

Lemma read_edges_step ti table ti' :
  read_edges ti table = Ok ti' ->
  ti_density ti' = table /\ exists z, ti_step ti' = Some z.
Proof.
  intros H. destruct (read_edges_inv (fun _ => True) ti table ti') as (_ & Hd & _ & Hs);
    [exact I | intros; exact I | exact H |].
  split; [exact Hd|]. rewrite Hs.
  unfold read_edges in H. destruct (ti_step ti) as [z|]; [eauto | discriminate].
Qed.

Lemma seg_step_ok G step pl rest final st node z :
  edge_lookup (g_edges G) (last_node st) node <> None -> step = Some z ->
  exists st', seg_step G step pl rest final st node = Ok st'.
Proof.
  intros He ->. unfold seg_step.
  destruct (edge_lookup (g_edges G) (last_node st) node) as [d|]; [|tauto].
  cbn [of_option bind].
  destruct (py_truthy rest && _); destruct (negb _ || _); eexists; reflexivity.
Qed.

Lemma segment_fold_ok G step pl rest final z (Hz : step = Some z) tl :
  forall st, is_walk G (last_node st :: tl) = true ->
  exists st', foldM (seg_step G step pl rest final) st tl = Ok st'.
Proof.
  induction tl as [|b tl IH]; intros st Hw; cbn [foldM]; [eauto|].
  cbn [is_walk] in Hw.
  destruct (edge_lookup (g_edges G) (last_node st) b) as [d|] eqn:E; [|discriminate].
  destruct (seg_step_ok G step pl rest final st b z) as [st1 E1];
    [rewrite E; discriminate | exact Hz |].
  rewrite E1. cbn [bind]. apply IH.
  destruct (seg_step_spec _ _ _ _ _ _ _ _ E1) as (d' & z' & _ & _ & -> & _). exact Hw.
Qed.

(** A source and target that coincide: [single_source_dijkstra] returns
    [[source]] and the segmentation loop never runs. *)
Theorem read_path_same_endpoints ti s c pl rest :
  node_lookup (g_nodes (ti_graph ti)) s = Some c ->
  read_path ti s s pl rest =
  match dict_get (ti_density ti) c with
  | Some _ => Ok (mk_path_report [] [] [s])
  | None => Err KeyError
  end.
Proof.
  intros Hc. unfold read_path, single_source_dijkstra, has_node.
  rewrite Hc. cbn [negb]. rewrite (proj2 (coord_eqb_eq s s) eq_refl).
  cbn [bind segment]. unfold node_color. rewrite Hc. cbn [of_option bind].
  destruct (dict_get (ti_density ti) c); reflexivity.
Qed.

Lemma read_path_same_endpoints_witness :
  node_lookup (g_nodes (ti_graph ti6)) (1, 1) = Some (pixel_color img6 1 1) /\
  read_path ti6 (1, 1) (1, 1) 1 0 = Ok (mk_path_report [] [] [(1, 1)]).
Proof.
  assert (H : node_lookup (g_nodes (ti_graph ti6)) (1, 1) = Some (pixel_color img6 1 1))
    by (vm_compute; reflexivity).
  split; [exact H|].
  rewrite (read_path_same_endpoints ti6 (1, 1) _ 1 0 H). vm_compute. reflexivity.
Defined.

(** Over a graph built by [read_edges] from a table with non-negative costs,
    [read_path] succeeds for every source node and every target connected
    to it; for a source equal to the target, the source's colour must be in
    the table. *)
Theorem read_path_succeeds_when_connected ti0 table ti s t pl rest :
  read_edges ti0 table = Ok ti ->
  (forall c l k, In (c, (l, k)) table -> 0 <= k) ->
  has_node (ti_graph ti) s = true ->
  reachable (ti_graph ti) s t ->
  s <> t \/ colour_known table (ti_graph ti) s ->
  exists r, read_path ti s t pl rest = Ok r /\ pr_nodes r <> [].
Proof.
  intros Hre Hcost Hs Hr Hst.
  pose proof (read_edges_wf _ _ _ Hre) as Hwf.
  pose proof (read_edges_edges_ok _ _ _ Hre Hcost) as Hedges.
  destruct (read_edges_step _ _ _ Hre) as [Hdd [z Hz]].
  destruct (single_source_dijkstra_finds (ti_graph ti) s t Hwf
              (fun e He => proj2 (proj2 (Hedges e He))) Hr Hs) as [p Ep].
  destruct (single_source_dijkstra_path _ _ _ _ Ep) as (Hhd & Hlast & Hwalk & _).
  destruct p as [|s' tl]; [discriminate|]. cbn [hd_error] in Hhd. injection Hhd as ->.
  assert (Hk : colour_known table (ti_graph ti) s).
  { destruct Hst as [Hst|Hk]; [|exact Hk].
    destruct tl as [|b tl]; [cbn in Hlast; congruence|].
    cbn [is_walk] in Hwalk.
    destruct (edge_lookup (g_edges (ti_graph ti)) s b) as [d|] eqn:E; [|discriminate].
    destruct (edge_lookup_endpoint _ _ _ _ E) as (e & He & [<-|<-]).
    - exact (proj1 (Hedges e He)).
    - exact (proj1 (proj2 (Hedges e He))). }
  destruct Hk as (c & d & Hc & Hd).
  destruct (segment_fold_ok (ti_graph ti) (ti_step ti) pl rest (last (s :: tl) s) z Hz tl
              (mk_seg_state s [] [] 0 0 0 0 (fst d)) Hwalk) as [st Est].
  exists (mk_path_report (rests st) (stages st) (s :: tl)). split; [|discriminate].
  unfold read_path. rewrite Ep. cbn [bind segment]. unfold node_color.
  rewrite Hc. cbn [of_option bind]. rewrite Hdd, Hd. cbn [of_option bind].
  rewrite Est. reflexivity.
Qed.

Lemma edge_lookup_same_edge es u v d :
  edge_lookup es u v = Some d -> exists e, In e es /\ same_edge u v e = true.
Proof.
  induction es as [|e es IH]; simpl; [discriminate|].
  destruct (same_edge u v e) eqn:E.
  - intros _. exists e. split; [now left | exact E].
  - intros H. destruct (IH H) as (e' & He' & Hs). exists e'. split; [now right | exact Hs].
Qed.

Lemma reach_edge G s v u :
  reachable G s v -> edge_lookup (g_edges G) v u <> None -> reachable G s u.
Proof.
  intros Hr Hl. destruct (edge_lookup (g_edges G) v u) as [d|] eqn:E; [|tauto].
  destruct (edge_lookup_same_edge _ _ _ _ E) as (e & He & Hs).
  unfold same_edge in Hs.
  apply orb_true_iff in Hs as [Hs|Hs]; apply andb_true_iff in Hs as [H1 H2];
    apply coord_eqb_eq in H1, H2.
  - pose proof (reach_step G s v e Hr He (or_introl H1)) as H.
    rewrite (proj2 (coord_eqb_eq _ _) H1), H2 in H. exact H.
  - pose proof (reach_step G s v e Hr He (or_intror H2)) as H.
    destruct (coord_eqb (e_src e) v) eqn:E'.
    + apply coord_eqb_eq in E'. congruence.
    + rewrite H1 in H. exact H.
Qed.

Lemma read_path_succeeds_when_connected_witness :
  exists r, read_path ti6 (1, 1) (3, 2) 1 0 = Ok r /\ pr_nodes r <> [].
Proof.
  assert (Hre : read_edges ti6_nodes table6 = Ok ti6) by (vm_compute; reflexivity).
  apply (read_path_succeeds_when_connected ti6_nodes table6 ti6 (1, 1) (3, 2) 1 0 Hre).
  - exact table6_costs_nonneg.
  - vm_compute. reflexivity.
  - apply (reach_edge _ _ (2, 1)); [|vm_compute; discriminate].
    apply (reach_edge _ _ (1, 1)); [apply reach_refl | vm_compute; discriminate].
  - left. discriminate.
Defined.

(** ** The number of entries [read_path] emits *)

Lemma seg_step_lengths G step pl rest final st node st' :
  seg_step G step pl rest final st node = Ok st' ->
  (List.length (stages st') <= S (List.length (stages st)))%nat /\
  (List.length (stages st) <= List.length (stages st'))%nat /\
  (List.length (rests st') <= S (List.length (rests st)))%nat /\
  (coord_eqb node final = true -> stages st' <> []).
Proof.
  intros H. destruct (seg_step_spec _ _ _ _ _ _ _ _ H)
    as (d & z & _ & _ & Hl & _ & Hr & Hs).
  cbv zeta in Hr, Hs.
  destruct (py_truthy rest && _); destruct Hr as [Hr _]; rewrite Hr;
  destruct (negb _ || coord_eqb node final) eqn:E; destruct Hs as [Hs _]; rewrite Hs;
    rewrite ?length_app; cbn [List.length]; (split; [lia|]); (split; [lia|]);
    (split; [lia|]); intros Hf.
  all: try (intros Hn; apply app_eq_nil in Hn as [_ Hn]; discriminate).
  all: rewrite Hf, orb_true_r in E; discriminate.
Qed.

Lemma seg_fold_lengths G step pl rest final tl :
  forall st st', foldM (seg_step G step pl rest final) st tl = Ok st' ->
  (List.length (stages st') <= List.length (stages st) + List.length tl)%nat /\
  (List.length (rests st') <= List.length (rests st) + List.length tl)%nat /\
  (tl <> [] -> last tl final = final -> stages st' <> []).
Proof.
  induction tl as [|b tl IH]; intros st st'; cbn [foldM].
  - intros [= <-]. cbn [List.length]. split; [lia|]. split; [lia | tauto].
  - destruct (seg_step G step pl rest final st b) as [st1|] eqn:E1; cbn [bind];
      [|discriminate].
    intros H. destruct (seg_step_lengths _ _ _ _ _ _ _ _ E1) as (Hs1 & Hs1' & Hr1 & Hf1).
    destruct (IH st1 st' H) as (Hs & Hr & Hf).
    cbn [List.length]. split; [lia|]. split; [lia|].
    intros _ Hlast. destruct tl as [|c tl].
    + cbn [foldM] in H. injection H as <-.
      apply Hf1. cbn [last] in Hlast. rewrite Hlast. apply coord_eqb_eq. reflexivity.
    + apply Hf; [discriminate | exact Hlast].
Qed.

Lemma last_default_irrel {A} (l : list A) d d' : l <> [] -> last l d = last l d'.
Proof.
  induction l as [|a l IH]; [tauto|]. intros _.
  destruct l as [|b l]; [reflexivity|]. apply IH. discriminate.
Qed.

(** The last iteration, at the final node, closes a stage anchored at the
    node before it. *)
Lemma seg_fold_last_stage G step pl rest final first tl st0 st :
  last_node st0 = first ->
  foldM (seg_step G step pl rest final) st0 tl = Ok st ->
  forall pre0 x, tl = pre0 ++ [x] -> x = final ->
  exists sts e, stages st = sts ++ [e] /\ se_node e = last (first :: pre0) first.
Proof.
  intros H0 Hf.
  refine (proj2 (foldM_inv_prefix _ (fun pre st =>
    last_node st = last (first :: pre) first /\
    forall pre0 x, pre = pre0 ++ [x] -> x = final ->
      exists sts e, stages st = sts ++ [e] /\ se_node e = last (first :: pre0) first)
    tl st0 st _ _ Hf)).
  - split; [exact H0|]. intros pre0 x Hx. destruct pre0; discriminate.
  - intros pre x post st1 st2 _ [Hl1 _] Hs. split.
    + destruct (seg_step_spec _ _ _ _ _ _ _ _ Hs) as (d & z & _ & _ & -> & _).
      change (first :: pre ++ [x]) with ((first :: pre) ++ [x]).
      symmetry. apply last_last.
    + intros pre0 y Hy Hyf. apply app_inj_tail in Hy as [<- <-].
      destruct (seg_step_spec _ _ _ _ _ _ _ _ Hs) as (d & z & _ & _ & _ & _ & _ & Hst).
      cbv zeta in Hst.
      rewrite (proj2 (coord_eqb_eq x final) Hyf), orb_true_r in Hst.
      destruct Hst as (Hst & _). eexists _, _. split; [exact Hst|].
      unfold se_node. cbn [fst]. exact Hl1.
Qed.

(** [read_path] emits at most one stage entry and at most one rest entry
    per edge of the path; when the path has an edge, the stage list is not
    empty and its last entry is anchored at the start [x] of the final edge
    [(x, y)]. *)
Theorem read_path_entry_counts ti s t pl rest r :
  read_path ti s t pl rest = Ok r ->
  (List.length (pr_stages r) < List.length (pr_nodes r))%nat /\
  (List.length (pr_rests r) < List.length (pr_nodes r))%nat /\
  forall pre x y, pr_nodes r = pre ++ [x; y] ->
    exists sts e, pr_stages r = sts ++ [e] /\ se_node e = x.
Proof.
  intros H. apply read_path_segment in H.
  destruct (segment_inv _ _ _ _ _ _ _ H) as (first & tl & lbl & st & Hnl & Hf & ->).
  cbn [pr_stages pr_rests pr_nodes]. rewrite Hnl in Hf |- *.
  destruct (seg_fold_lengths _ _ _ _ _ _ _ _ Hf) as (Hs & Hr & _).
  cbn [stages rests List.length] in Hs, Hr |- *.
  split; [lia|]. split; [lia|]. intros pre x y Hp.
  pose proof (fun H0 => seg_fold_last_stage _ _ _ _ _ first tl _ st H0 Hf) as Hl.
  specialize (Hl eq_refl).
  destruct pre as [|p pre'].
  - injection Hp as -> ->. apply (Hl [] y eq_refl eq_refl).
  - injection Hp as <- ->.
    destruct (Hl (pre' ++ [x]) y) as (sts & e & He & Hx).
    + rewrite <- app_assoc. reflexivity.
    + replace (first :: pre' ++ [x; y]) with ((first :: pre' ++ [x]) ++ [y])
        by (cbn [app]; rewrite <- app_assoc; reflexivity).
      symmetry. apply last_last.
    + exists sts, e. split; [exact He|]. rewrite Hx.
      change (first :: pre' ++ [x]) with ((first :: pre') ++ [x]). apply last_last.
Qed.

Lemma read_path_entry_counts_witness :
  exists r, read_path ti6 (1, 1) (3, 2) 1 1 = Ok r /\
  (List.length (pr_stages r) < List.length (pr_nodes r))%nat /\
  (List.length (pr_rests r) < List.length (pr_nodes r))%nat /\
  forall pre x y, pr_nodes r = pre ++ [x; y] ->
    exists sts e, pr_stages r = sts ++ [e] /\ se_node e = x.
Proof.
  eexists. split; [vm_compute; reflexivity|].
  apply (read_path_entry_counts ti6 (1, 1) (3, 2) 1 1). vm_compute. reflexivity.
Defined.
